(** * create_networks.py: officer and corporation co-affiliation networks

    A shallow embedding of [scripts/create_networks.py] and the properties
    of its record loader, membership index, projection engine, component
    filter and attribute summarizers.

    Conventions of the embedding.
    - A JSON field read with [dict.get(key)] is a [pyval]: [None] when the
      key is absent (or null), [Some s] for the string [s].
    - A Python [dict] is a [gmap], a Python [set] a [gset].  The order in
      which a [set] is iterated depends on the hash seed of the process;
      it is the parameter [HashSeed] of everything that iterates a set.
    - A Python exception is a value [Raise e] of the [result] monad.
    - The calls into pandas and networkx are embedded by what they do on
      the values the script passes: [groupby(...).agg(set)] collects a
      set per key and drops the rows whose key is missing; the component
      filter is the breadth-first search of [connected_components], the
      first longest component for [max], and the induced [subgraph].
    - A Python [str] is the [string] of the bytes of its UTF-8 encoding.
      Two strings are equal when their encodings are, and the order of
      [<] on [str], by code point, is the order of the encodings byte by
      byte. *)

From Stdlib Require Import String Ascii.
From stdpp Require Import base option list sorting gmap fin_sets fin_maps strings.

Local Open Scope string_scope.
Local Open Scope list_scope.
Local Open Scope stdpp_scope.

#[local] Set Warnings "-clear-no-such-hyp".

(** ** Exceptions *)

Inductive exn : Set :=
  | JSONDecodeError
  | KeyError
  | TypeError
  | ValueError
  | AttributeError.

Inductive result (A : Type) : Type :=
  | OK (a : A)
  | Raise (e : exn).
Arguments OK {A} a.
Arguments Raise {A} e.

#[global] Instance result_ret : MRet result := λ A a, OK a.
#[global] Instance result_bind : MBind result := λ A B f m,
  match m with
  | OK a => f a
  | Raise e => Raise e
  end.
#[global] Instance result_fmap : FMap result := λ A B f m,
  match m with
  | OK a => OK (f a)
  | Raise e => Raise e
  end.

Definition succeeds {A} (m : result A) : Prop := ∃ a, m = OK a.
Definition fails {A} (m : result A) : Prop := ∃ e, m = Raise e.

(** [for x in l: acc.extend(f(x))], stopping at the first exception. *)
Fixpoint for_extend {A B} (f : A → result (list B)) (l : list A) : result (list B) :=
  match l with
  | [] => OK []
  | x :: l' => ys ← f x; zs ← for_extend f l'; OK (ys ++ zs)
  end.

(** [[f(x) for x in l]], stopping at the first exception. *)
Fixpoint for_each {A B} (f : A → result B) (l : list A) : result (list B) :=
  match l with
  | [] => OK []
  | x :: l' => y ← f x; ys ← for_each f l'; OK (y :: ys)
  end.

(** ** Data model *)

(** The value of [d.get(key)] for a JSON object of string fields. *)
Definition pyval : Type := option string.

(** A JSON object whose values are strings; a null field is an absent key,
    which [dict.get] does not distinguish. *)
Definition json_object : Type := gmap string string.

(** One company document: [data['Corp']] and [data['Officers']], each of
    which may be missing. *)
Record company_doc : Type := {
  Corp : option json_object;
  Officers : option (list json_object)
}.

(** A file of the input directory: its name and what [json.load] makes of
    its contents. *)
Inductive file_content : Type :=
  | Malformed
  | Parsed (data : company_doc).

Record file : Type := {
  file_name : string;
  file_data : file_content
}.

(** One row of [df]: the merged officer and corporation fields. *)
Record Row : Type := {
  CorpOfficerId : pyval;
  FullNameNormalized : pyval;
  FullName : pyval;
  Nationality : pyval;
  IdNumber : pyval;
  CorpId : pyval;
  CompanyName : pyval;
  RegistrationNumber : pyval;
  HoldingCompanyName : pyval;
  HoldingCompanyRegNumber : pyval;
  RegistrationDate : pyval;
  AltName : pyval
}.

(** The tuple [(row['FullNameNormalized'], row['IdNumber'])]. *)
Definition Unique : Type := pyval * pyval.

Definition OfficerUnique (row : Row) : Unique :=
  (FullNameNormalized row, IdNumber row).

(** ** Record loader *)

(** [json.load(f)]: raises [JSONDecodeError] on malformed contents. The
    exception carries a message, the document and a position, not the name
    of the file. *)
Definition json_load (f : file) : result company_doc :=
  match file_data f with
  | Malformed => Raise JSONDecodeError
  | Parsed data => OK data
  end.

(** The file loading loop: [company_list]. *)
Definition load_company_list (files : list file) : result (list company_doc) :=
  for_each json_load files.

(** [company.get('Corp', dict())] and [company.get('Officers', list())]. *)
Definition get_Corp (company : company_doc) : json_object :=
  default ∅ (Corp company).
Definition get_Officers (company : company_doc) : list json_object :=
  default [] (Officers company).

(** [{ **officer_dict, **corp_dict }] over [OFFICER_KEYS] and [CORP_KEYS]. *)
Definition full_dict (corp officer : json_object) : Row := {|
  CorpOfficerId := officer !! "CorpOfficerId";
  FullNameNormalized := officer !! "FullNameNormalized";
  FullName := officer !! "FullName";
  Nationality := officer !! "Nationality";
  IdNumber := officer !! "IdNumber";
  CorpId := corp !! "CorpId";
  CompanyName := corp !! "CompanyName";
  RegistrationNumber := corp !! "RegistrationNumber";
  HoldingCompanyName := corp !! "HoldingCompanyName";
  HoldingCompanyRegNumber := corp !! "HoldingCompanyRegNumber";
  RegistrationDate := corp !! "RegistrationDate";
  AltName := corp !! "AltName"
|}.

(** The record flattening loop: [officer_dict_list]. *)
Definition officer_dict_list (company_list : list company_doc) : list Row :=
  company ← company_list;
  full_dict (get_Corp company) <$> get_Officers company.

(** ** Python containers *)

(** The iteration order of hash-based sets. Python fixes no order: it
    follows the hashes of the elements, and the hash of a string changes
    with the seed of the process. *)
Class HashSeed : Type := {
  set_iter : ∀ `{Countable A}, gset A → list A;
  set_iter_perm : ∀ `{Countable A} (X : gset A), set_iter X ≡ₚ elements X
}.

(** [d[k]]: raises [KeyError] when [k] is not a key. *)
Definition getitem `{Countable K} {V} (d : gmap K V) (k : K) : result V :=
  match d !! k with
  | Some v => OK v
  | None => Raise KeyError
  end.

(** [d.get(k, dflt)]. *)
Definition dict_get `{Countable K} {V} (d : gmap K V) (k : K) (dflt : V) : V :=
  default dflt (d !! k).

(** [dict(zip(keys, values))]: a later pair overwrites an earlier one. *)
Definition dict_zip `{Countable K} {V} (kvs : list (K * V)) : gmap K V :=
  foldl (λ d kv, <[kv.1 := kv.2]> d) ∅ kvs.

(** [collections.Counter(l)]. *)
Definition Counter `{Countable K} (l : list K) : gmap K nat :=
  foldl (λ c x, <[x := S (default 0 (c !! x))]> c) ∅ l.

(** ** Python's [<] on the node keys *)

(** [a < b] on field values: strings compare by code point, and [None]
    does not compare at all. *)
Definition pyval_lt (a b : pyval) : result bool :=
  match a, b with
  | Some s, Some t => OK (s <? t)%string
  | _, _ => Raise TypeError
  end.

(** [x < y] on tuples of two fields: the first position where the tuples
    differ decides. *)
Definition tuple_lt (x y : Unique) : result bool :=
  if decide (x.1 = y.1) then
    if decide (x.2 = y.2) then OK false else pyval_lt x.2 y.2
  else pyval_lt x.1 y.1.

(** ** Membership index *)

(** [dict(df.groupby(key).agg({col: set})[col])]. A group whose key is
    missing is dropped by [groupby]. *)
Definition groupby_set `{Countable K, Countable V}
    (key : Row → K) (isna : K → bool) (col : Row → V) (df : list Row) : gmap K (gset V) :=
  foldr (λ row groups,
    if isna (key row) then groups
    else <[key row := {[col row]} ∪ default ∅ (groups !! key row)]> groups) ∅ df.

Definition pyval_isna (v : pyval) : bool := bool_decide (v = None).

Definition officers_by_company (df : list Row) : gmap pyval (gset Unique) :=
  groupby_set CorpId pyval_isna OfficerUnique df.

(** A tuple is never a missing value, whatever its components. *)
Definition companies_by_officer (df : list Row) : gmap Unique (gset pyval) :=
  groupby_set OfficerUnique (λ _, false) CorpId df.

(** ** Projection engine *)

Section projection.
Context `{HashSeed}.
Context `{Countable K, Countable J}.
(** [own] maps a node to its opposite-type neighbours, [opp] an
    opposite-type node to its members; [key_lt] is [<] on the nodes. *)
Variable key_lt : K → K → result bool.
Variable own : gmap K (gset J).
Variable opp : gmap J (gset K).

(** [sorted([x, y])]: the sort asks whether the second is below the
    first. *)
Definition sorted_pair (x y : K) : result (K * K) :=
  lt ← key_lt y x; OK (if lt : bool then (y, x) else (x, y)).

(** [[m for o in own[n] for m in opp[o]]]. *)
Definition co_members (n : K) : result (list K) :=
  os ← getitem own n;
  for_extend (λ o, ms ← getitem opp o; OK (set_iter ms)) (set_iter os).

(** The body of the loop over the nodes: the edges found from [n]. *)
Definition edges_from (n : K) : result (list (K * K * nat)) :=
  l ← co_members n;
  let c := delete n (Counter l) in
  for_each (λ item : K * nat,
    st ← sorted_pair n item.1; OK (st.1, st.2, item.2)) (map_to_list c).

(** The loop over [own.keys()], then [list(set(edges))]. *)
Definition projected_edges : result (list (K * K * nat)) :=
  edges ← for_extend edges_from (map_to_list own).*1;
  OK (set_iter (list_to_set edges : gset (K * K * nat))).
End projection.

Definition officer_edges `{HashSeed} (df : list Row) : result (list (Unique * Unique * nat)) :=
  projected_edges tuple_lt (companies_by_officer df) (officers_by_company df).

Definition corp_edges `{HashSeed} (df : list Row) : result (list (pyval * pyval * nat)) :=
  projected_edges pyval_lt (officers_by_company df) (companies_by_officer df).

(** ** Component filter

    The part of networkx the script calls: [Graph.add_edges_from],
    [connected_components], [Graph.subgraph], [Graph.nodes] and
    [Graph.edges(data=True)]. *)

Section networkx.
Context `{Countable K}.

(** An undirected graph: the nodes in the order they were added, and the
    adjacency dict of dicts holding the weight of each edge. *)
Record Graph : Type := {
  nodes : list K;
  adj : gmap K (gmap K nat)
}.

Definition empty_graph : Graph := {| nodes := []; adj := ∅ |}.

Definition neighbors (G : Graph) (v : K) : gmap K nat :=
  default ∅ (adj G !! v).

Definition add_node (G : Graph) (n : K) : Graph :=
  if decide (n ∈ nodes G) then G
  else {| nodes := nodes G ++ [n]; adj := <[n := ∅]> (adj G) |}.

Definition add_edge (G : Graph) (e : K * K * nat) : Graph :=
  let '(u, v, w) := e in
  let G := add_node (add_node G u) v in
  let adj1 := <[u := <[v := w]> (neighbors G u)]> (adj G) in
  {| nodes := nodes G;
     adj := <[v := <[u := w]> (default ∅ (adj1 !! v))]> adj1 |}.

Definition add_edges_from (G : Graph) (ebunch : list (K * K * nat)) : Graph :=
  foldl add_edge G ebunch.

(** [_plain_bfs]: the levels of a breadth-first search from the first
    level [nextlevel]; [fuel] bounds the number of turns of its loop. *)
Fixpoint plain_bfs (G : Graph) (fuel : nat) (seen nextlevel : gset K) : gset K :=
  match fuel with
  | 0 => seen
  | S fuel =>
    if decide (nextlevel = ∅) then seen
    else
      let fresh := nextlevel ∖ seen in
      plain_bfs G fuel (seen ∪ fresh)
        (⋃ ((λ v, dom (neighbors G v)) <$> elements fresh))
  end.

(** A search sees a new node in every turn but the last two. *)
Definition bfs_from (G : Graph) (source : K) : gset K :=
  plain_bfs G (2 + length (nodes G)) ∅ {[source]}.

(** The loop of [connected_components] over the nodes: a search from
    every node not seen before. *)
Definition components_loop (G : Graph) (l : list K) : gset K * list (gset K) :=
  foldl (λ st v,
     if decide (v ∈ st.1) then st
     else let c := bfs_from G v in (st.1 ∪ c, st.2 ++ [c]))
   (∅, []) l.

(** [connected_components]: one component per node not seen before, in
    the order of the nodes. *)
Definition connected_components (G : Graph) : list (gset K) :=
  (components_loop G (nodes G)).2.

(** [max(components, key=len)]: the first of the longest ones, and
    [ValueError] when there is none. *)
Definition max_by_len (cs : list (gset K)) : result (gset K) :=
  match cs with
  | [] => Raise ValueError
  | c :: cs => OK (foldl (λ best c, if decide (size best < size c) then c else best) c cs)
  end.

(** [G.subgraph(c)]: the nodes of [c] and the edges between them. *)
Definition subgraph (G : Graph) (c : gset K) : Graph :=
  {| nodes := filter (λ n, n ∈ c) (nodes G);
     adj := (λ nbrs, filter (λ kv, kv.1 ∈ c) nbrs) <$> filter (λ kv, kv.1 ∈ c) (adj G) |}.

(** The loop of [G.edges(data=True)] over the nodes: the edges of a node
    to the neighbours not met before. *)
Definition edges_loop (G : Graph) (l : list K) : gset K * list (K * K * nat) :=
  foldl (λ st n,
     (st.1 ∪ {[n]},
      st.2 ++ ((λ kv, (n, kv.1, kv.2)) <$>
               filter (λ kv, kv.1 ∉ st.1) (map_to_list (neighbors G n)))))
   (∅, []) l.

(** [G.edges(data=True)]: every edge once, reported from the endpoint
    met first among the nodes. *)
Definition edges (G : Graph) : list (K * K * nat) :=
  (edges_loop G (nodes G)).2.

(** The largest connected subgraph, as the script computes it. *)
Definition largest_component (ebunch : list (K * K * nat)) : result Graph :=
  let _G := add_edges_from empty_graph ebunch in
  c ← max_by_len (connected_components _G);
  OK (subgraph _G c).
End networkx.

Arguments Graph K {_ _}.

(** ** Attribute summarizers *)

(** The characters that [str.isspace] holds for, and that [str.strip]
    trims, by the bytes of their encoding. On one byte: U+0009 to U+000D
    and U+001C to U+0020. *)
Definition is_space (c : ascii) : bool :=
  let n := nat_of_ascii c in
  ((9 <=? n) && (n <=? 13) || (28 <=? n) && (n <=? 32))%nat.

(** On two bytes: U+0085 and U+00A0. *)
Definition is_space2 (c1 c2 : ascii) : bool :=
  let n1 := nat_of_ascii c1 in
  let n2 := nat_of_ascii c2 in
  ((n1 =? 194) && ((n2 =? 133) || (n2 =? 160)))%nat.

(** On three bytes: U+1680; U+2000 to U+200A, U+2028, U+2029 and U+202F;
    U+205F; U+3000. *)
Definition is_space3 (c1 c2 c3 : ascii) : bool :=
  let n1 := nat_of_ascii c1 in
  let n2 := nat_of_ascii c2 in
  let n3 := nat_of_ascii c3 in
  ((n1 =? 225) && (n2 =? 154) && (n3 =? 128)
   || (n1 =? 226) && (n2 =? 128)
      && ((128 <=? n3) && (n3 <=? 138) || (n3 =? 168) || (n3 =? 169) || (n3 =? 175))
   || (n1 =? 226) && (n2 =? 129) && (n3 =? 159)
   || (n1 =? 227) && (n2 =? 128) && (n3 =? 128))%nat.

(** The string without the whitespace characters it starts with, for the
    two and three byte characters given by [sp2] and [sp3]. *)
Fixpoint skip_spaces (sp2 : ascii → ascii → bool) (sp3 : ascii → ascii → ascii → bool)
    (s : string) : string :=
  match s with
  | String c1 s1 =>
    if is_space c1 then skip_spaces sp2 sp3 s1
    else
      match s1 with
      | String c2 s2 =>
        if sp2 c1 c2 then skip_spaces sp2 sp3 s2
        else
          match s2 with
          | String c3 s3 => if sp3 c1 c2 c3 then skip_spaces sp2 sp3 s3 else s
          | EmptyString => s
          end
      | EmptyString => s
      end
  | EmptyString => EmptyString
  end.

(** [s.lstrip()]. *)
Definition lstrip (s : string) : string :=
  skip_spaces is_space2 is_space3 s.

(** [s.rstrip()]: from the end, the bytes of a character come last
    first. *)
Definition rstrip (s : string) : string :=
  String.rev (skip_spaces (λ c2 c1, is_space2 c1 c2)
                          (λ c3 c2 c1, is_space3 c1 c2 c3) (String.rev s)).

(** [s.strip()]. *)
Definition strip (s : string) : string :=
  rstrip (lstrip s).

(** [sorted(items, key=lambda item: item[1], reverse=True)]: the sort is
    stable, so items of equal count keep the order they came in. *)
Fixpoint insert_desc {A} (x : A * nat) (l : list (A * nat)) : list (A * nat) :=
  match l with
  | [] => [x]
  | y :: l' => if decide (x.2 < y.2) then y :: insert_desc x l' else x :: y :: l'
  end.

Definition sorted_desc {A} (items : list (A * nat)) : list (A * nat) :=
  foldr insert_desc [] items.

(** [l = l[:min(3, ll)]; l.extend([None] * (3 - ll))], where [none] is
    [None] among the keys. *)
Definition top3 {P} (none : P) (l : list P) : list P :=
  let ll := length l in
  take (3 `min` ll) l ++ replicate (3 - ll) none.

Section summarizers.
Context `{HashSeed}.
Variable officers_by_company : gmap pyval (gset Unique).
Variable companies_by_officer : gmap Unique (gset pyval).
(** The keys of [unique_to_name] are tuples, and [None] is looked up in
    it as well. *)
Variable unique_to_name : gmap (option Unique) string.
Variable corpid_to_company_name : gmap pyval pyval.

Definition get_most_popular_officers (corpid : pyval) : result (list string) :=
  officers ← getitem officers_by_company corpid;
  _d ← for_each (λ officer,
          cs ← getitem companies_by_officer officer; OK (officer, size cs))
        (set_iter officers);
  let l := (sorted_desc _d).*1 in
  let l := top3 None (Some <$> l) in
  OK ((λ name, dict_get unique_to_name name "") <$> l).

Definition get_most_popular_companies (unique : Unique) : result (list pyval) :=
  corpids ← getitem companies_by_officer unique;
  _d ← for_each (λ corpid,
          os ← getitem officers_by_company corpid; OK (corpid, size os))
        (set_iter corpids);
  let l := (sorted_desc _d).*1 in
  let l := top3 None l in
  OK ((λ name, dict_get corpid_to_company_name name (Some "")) <$> l).
End summarizers.

(** [dict(zip(df['OfficerUnique'], df['FullName'].apply(lambda s: s.strip())))]:
    a missing [FullName] has no [strip]. *)
Definition unique_to_name (df : list Row) : result (gmap (option Unique) string) :=
  names ← for_each (λ row,
             match FullName row with
             | Some s => OK (strip s)
             | None => Raise AttributeError
             end) df;
  OK (dict_zip (zip (Some ∘ OfficerUnique <$> df) names)).

Definition unique_to_id (df : list Row) : gmap Unique pyval :=
  dict_zip ((λ row, (OfficerUnique row, IdNumber row)) <$> df).

Definition corpid_to_company_name (df : list Row) : gmap pyval pyval :=
  dict_zip ((λ row, (CorpId row, CompanyName row)) <$> df).

Definition corpid_to_alt_name (df : list Row) : gmap pyval pyval :=
  dict_zip ((λ row, (CorpId row, AltName row)) <$> df).

(** ** The whole script *)

(** A row of [cdf]: CorpId, CompanyName, AltName, Officer1 to Officer3. *)
Record corp_attributes : Type := {
  cdf_CorpId : pyval;
  cdf_CompanyName : pyval;
  cdf_AltName : pyval;
  cdf_Officers : list string
}.

(** A row of [odf]: OfficerUnique, FullName, IdNumber, Company1 to
    Company3. *)
Record officer_attributes : Type := {
  odf_OfficerUnique : Unique;
  odf_FullName : pyval;
  odf_IdNumber : pyval;
  odf_Companies : list pyval
}.

(** The four tables written to [OUTPUT_DIR]. *)
Record output : Type := {
  officers_edges : list (Unique * Unique * nat);
  corporations_edges : list (pyval * pyval * nat);
  corporations_attributes : list corp_attributes;
  officers_attributes : list officer_attributes
}.

Definition create_networks `{HashSeed} (files : list file) : result output :=
  company_list ← load_company_list files;
  let df := officer_dict_list company_list in
  (* a frame made of no rows has no column to group by *)
  _ ← (if df is [] then Raise KeyError else OK ());
  let obc := officers_by_company df in
  let cbo := companies_by_officer df in
  officer_edges ← officer_edges df;
  corp_edges ← corp_edges df;
  G_officers ← largest_component officer_edges;
  G_corps ← largest_component corp_edges;
  let filtered_officers : gset Unique := list_to_set (nodes G_officers) in
  let filtered_corps : gset pyval := list_to_set (nodes G_corps) in
  utn ← unique_to_name df;
  most_popular_officer ← for_each (λ corpid,
      names ← get_most_popular_officers obc cbo utn corpid; OK (corpid, names))
    (set_iter filtered_corps);
  let ctn := corpid_to_company_name df in
  let cta := corpid_to_alt_name df in
  let cdf := (λ corpid,
      {| cdf_CorpId := corpid;
         cdf_CompanyName := mjoin (ctn !! corpid);
         cdf_AltName := mjoin (cta !! corpid);
         cdf_Officers := default [] (dict_zip most_popular_officer !! corpid) |})
    <$> set_iter filtered_corps in
  most_popular_company ← for_each (λ unique,
      names ← get_most_popular_companies obc cbo ctn unique; OK (unique, names))
    (map_to_list cbo).*1;
  let uti := unique_to_id df in
  let odf := (λ unique,
      {| odf_OfficerUnique := unique;
         odf_FullName := utn !! Some unique;
         odf_IdNumber := mjoin (uti !! unique);
         odf_Companies := default [] (dict_zip most_popular_company !! unique) |})
    <$> set_iter filtered_officers in
  OK {| officers_edges := edges G_officers;
        corporations_edges := edges G_corps;
        corporations_attributes := cdf;
        officers_attributes := odf |}.

(** Two hash seeds. *)
Program Definition seed_up : HashSeed :=
  {| set_iter A _ _ X := elements X |}.
Next Obligation. done. Qed.

Program Definition seed_down : HashSeed :=
  {| set_iter A _ _ X := reverse (elements X) |}.
Next Obligation. intros. apply reverse_Permutation. Qed.

(** ** Sample inputs *)

Definition officer_named (normalized full id : string) : json_object :=
  {[ "FullNameNormalized" := normalized; "FullName" := full; "IdNumber" := id ]}.

Definition officer_json (name id : string) : json_object :=
  officer_named name name id.

Definition corp_json (id name : string) : json_object :=
  {[ "CorpId" := id; "CompanyName" := name ]}.

Definition company_file (id name : string) (officers : list json_object) : file :=
  {| file_name := id;
     file_data := Parsed {| Corp := Some (corp_json id name); Officers := Some officers |} |}.

Definition O1 : Unique := (Some "O1", Some "1").
Definition O2 : Unique := (Some "O2", Some "2").
Definition O3 : Unique := (Some "O3", Some "3").
Definition O4 : Unique := (Some "O4", Some "4").

(** Three companies C1 = {O1, O2}, C2 = {O2, O3}, C3 = {O1, O3, O4}. *)
Definition three_companies : list file :=
  [ company_file "C1" "One" [officer_json "O1" "1"; officer_json "O2" "2"];
    company_file "C2" "Two" [officer_json "O2" "2"; officer_json "O3" "3"];
    company_file "C3" "Three"
      [officer_json "O1" "1"; officer_json "O3" "3"; officer_json "O4" "4"] ].




(** One officer under two spellings of the display name, in two files
    that give the same corp_id two company names; O2 makes the officer
    graph non-empty and C7 the company graph. *)
Definition respelled : list file :=
  [ company_file "C6" "Old name" [officer_named "ANN" " Ann One " "1"; officer_json "O2" "2"];
    company_file "C6" "New name" [officer_named "ANN" "Ann Two" "1"];
    company_file "C7" "Seven" [officer_json "O2" "2"] ].

(** An officer without id number whose names are blank, sitting alone in
    C8 and with O2 in C9. *)
Definition blank_officer : json_object :=
  {[ "FullNameNormalized" := ""; "FullName" := " " ]}.

Definition blank : Unique := (Some "", None).

Definition with_blank : list file :=
  [ company_file "C8" "Eight" [blank_officer];
    company_file "C9" "Nine" [blank_officer; officer_json "O2" "2"] ].

(** A company with a single officer. *)
Definition lone_company : list file :=
  [ company_file "C1" "One" [officer_json "O1" "1"] ].

(** O2 listed a second time, in C2, without display name. *)
Definition nameless_officer : json_object :=
  {[ "FullNameNormalized" := "O2"; "IdNumber" := "2" ]}.

Definition without_full_name : list file :=
  [ company_file "C1" "One" [officer_json "O1" "1"; officer_json "O2" "2"];
    company_file "C2" "Two" [nameless_officer; officer_json "O3" "3"] ].

(** A company whose [Corp] has no [CorpId]. *)
Definition without_corp_id : list file :=
  [ {| file_name := "C1";
       file_data := Parsed {| Corp := Some {[ "CompanyName" := "One" ]};
                              Officers := Some [officer_json "O1" "1";
                                                officer_json "O2" "2"] |} |} ].


(** The rows of a list of well-formed files. *)
Definition rows_of (files : list file) : list Row :=
  officer_dict_list
    (omap (λ f, match file_data f with Parsed data => Some data | Malformed => None end) files).

(** ** Vocabulary of the properties *)

(** The number of occurrences of [x] in [l]. *)
Definition occurrences `{EqDecision A} (x : A) (l : list A) : nat :=
  length (filter (x =.) l).

(** There is an edge of weight [w] between [a] and [b], whichever endpoint
    is stored first. *)
Definition edge_between {K} (E : list (K * K * nat)) (a b : K) (w : nat) : Prop :=
  (a, b, w) ∈ E ∨ (b, a, w) ∈ E.

(** The membership sets in the words of the data model:
    [companies_of(officer_identity)] is the set of the corp_ids of the
    records of that identity, [officers_of(corp_id)] the set of the
    identities of the records of that company. *)
Definition companies_of (df : list Row) (a : Unique) : gset pyval :=
  list_to_set (CorpId <$> filter (λ row, OfficerUnique row = a) df).

Definition officers_of (df : list Row) (c : pyval) : gset Unique :=
  list_to_set (OfficerUnique <$> filter (λ row, CorpId row = c) df).

(** The (officer, company) pairs of the rows. *)
Definition memberships (df : list Row) : gset (Unique * pyval) :=
  list_to_set ((λ row, (OfficerUnique row, CorpId row)) <$> df).

(** A row whose corp_id and identity components are all present. *)
Definition complete_row (row : Row) : Prop :=
  is_Some (CorpId row) ∧ is_Some (FullNameNormalized row) ∧ is_Some (IdNumber row).

(** The popularity of [k]: the size of its set in [index]. *)
Definition popularity `{Countable K, Countable V}
    (index : gmap K (gset V)) (k : K) : K * nat :=
  (k, size (default ∅ (index !! k))).

(** Decreasing count. *)
Definition desc {A} : relation (A * nat) := λ x y, y.2 < x.2.

(** The weights of [E] are those of a simple graph: two edges on the same
    pair of nodes weigh the same. *)
Definition simple {K} (E : list (K * K * nat)) : Prop :=
  ∀ a b w w', edge_between E a b w → edge_between E a b w' → w = w'.

(** [x] and [y] are joined by an edge of the list. *)
Definition adjacent {K} (E : list (K * K * nat)) : relation K :=
  λ x y, ∃ w, edge_between E x y w.

(** [x] and [y] are joined by a path of edges of the list. *)
Definition connected {K} (E : list (K * K * nat)) : relation K :=
  rtc (adjacent E).

(** The graph [G] holds the edges of [E]: its nodes are their endpoints,
    each once, and its adjacency holds, for two neighbours, the weight
    of an edge of [E] between them. *)
Record represents `{Countable K} (G : Graph K) (E : list (K * K * nat)) : Prop := {
  rep_NoDup : NoDup (nodes G);
  rep_dom : ∀ x, x ∉ nodes G → adj G !! x = None;
  rep_nodes : ∀ x, x ∈ nodes G ↔ ∃ y, adjacent E x y;
  rep_adjacent : ∀ x y, is_Some (neighbors G x !! y) ↔ adjacent E x y;
  rep_weight : ∀ x y w, neighbors G x !! y = Some w → edge_between E x y w;
  rep_sym : ∀ x y, neighbors G x !! y = neighbors G y !! x
}.

(** [y] is a neighbour of [x] in [G]. *)
Definition linked `{Countable K} (G : Graph K) : relation K :=
  λ x y, is_Some (neighbors G x !! y).

(** The component [c] of the edges [E] behind a table of edges and the
    keys of a table of attributes. *)
Definition kept_component {K} (E table : list (K * K * nat)) (keys : list K)
    (c : K → Prop) : Prop :=
  (∃ v, c v ∧ ∀ y, c y ↔ connected E v y) ∧
  (∀ x, c x → ∃ y, adjacent E x y) ∧
  NoDup keys ∧
  (∀ x, x ∈ keys ↔ c x) ∧
  (∀ a b w, edge_between table a b w ↔ c a ∧ c b ∧ edge_between E a b w).

(** * Properties *)

(** ** The [result] monad *)

Lemma bind_OK {A B} (m : result A) (f : A → result B) (b : B) :
  m ≫= f = OK b ↔ ∃ a, m = OK a ∧ f a = OK b.
Proof.
  destruct m as [a|e]; simpl.
  - split; [eauto|]. by intros (a' & [= <-] & ?).
  - split; [done|]. by intros (? & ? & ?).
Qed.

Lemma bind_OK_l {A B} (a : A) (f : A → result B) : OK a ≫= f = f a.
Proof. done. Qed.

Lemma bind_Raise_l {A B} (e : exn) (f : A → result B) : Raise e ≫= f = Raise e.
Proof. done. Qed.

Lemma for_each_OK {A B} (f : A → result B) (l : list A) (ys : list B) :
  for_each f l = OK ys ↔ Forall2 (λ x y, f x = OK y) l ys.
Proof.
  revert ys. induction l as [|x l IH]; intros ys; simpl.
  - split; [intros [= <-]; constructor|]. by inversion 1.
  - rewrite bind_OK. split.
    + intros (y & Hy & Hrest). apply bind_OK in Hrest as (ys' & Hys' & [= <-]).
      constructor; [done|]. by apply IH.
    + inversion 1 as [|? y ? ys' Hy Hys']; subst. exists y. split; [done|].
      apply bind_OK. exists ys'. split; [by apply IH|done].
Qed.

Lemma for_each_succeeds {A B} (f : A → result B) (l : list A) :
  (∀ x, x ∈ l → succeeds (f x)) → succeeds (for_each f l).
Proof.
  induction l as [|x l IH]; intros Hl; simpl.
  - by eexists.
  - destruct (Hl x) as [y Hy]; [left|]. rewrite Hy. simpl.
    destruct IH as [ys Hys]; [intros; apply Hl; by right|].
    rewrite Hys. by eexists.
Qed.

Lemma for_each_elem_of {A B} (f : A → result B) (l : list A) (ys : list B) (y : B) :
  for_each f l = OK ys → y ∈ ys ↔ ∃ x, x ∈ l ∧ f x = OK y.
Proof.
  rewrite for_each_OK. induction 1 as [|x y' l ys' Hxy _ IH].
  - split; [by intros ?%elem_of_nil|]. by intros (? & ?%elem_of_nil & _).
  - rewrite elem_of_cons, IH. split.
    + intros [->|(x' & ? & ?)]; [exists x; split; [left|done]|].
      exists x'. split; [by right|done].
    + intros (x' & [->|?]%elem_of_cons & Hx'); [left; congruence|].
      right. eauto.
Qed.

Lemma for_each_length {A B} (f : A → result B) (l : list A) (ys : list B) :
  for_each f l = OK ys → length ys = length l.
Proof. rewrite for_each_OK. intros Hall. symmetry. by eapply Forall2_length. Qed.

Lemma for_extend_OK {A B} (f : A → result (list B)) (l : list A) (zs : list B) :
  for_extend f l = OK zs ↔ ∃ yss, Forall2 (λ x ys, f x = OK ys) l yss ∧ zs = concat yss.
Proof.
  revert zs. induction l as [|x l IH]; intros zs; simpl.
  - split.
    + intros [= <-]. exists []. split; [constructor|done].
    + intros (yss & Hall & ->). by inversion Hall.
  - rewrite bind_OK. split.
    + intros (ys & Hys & Hrest). apply bind_OK in Hrest as (zs' & Hzs' & [= <-]).
      apply IH in Hzs' as (yss & Hall & ->).
      exists (ys :: yss). split; [by constructor|done].
    + intros (yss & Hall & ->). inversion Hall as [|? ys ? yss' Hys Hall']; subst.
      exists ys. split; [done|]. apply bind_OK. exists (concat yss').
      split; [|done]. apply IH. eauto.
Qed.

Lemma for_extend_succeeds {A B} (f : A → result (list B)) (l : list A) :
  (∀ x, x ∈ l → succeeds (f x)) → succeeds (for_extend f l).
Proof.
  induction l as [|x l IH]; intros Hl; simpl.
  - by eexists.
  - destruct (Hl x) as [y Hy]; [left|]. rewrite Hy. simpl.
    destruct IH as [ys Hys]; [intros; apply Hl; by right|].
    rewrite Hys. by eexists.
Qed.

Lemma for_extend_elem_of {A B} (f : A → result (list B)) (l : list A) (zs : list B) (z : B) :
  for_extend f l = OK zs → z ∈ zs ↔ ∃ x ys, x ∈ l ∧ f x = OK ys ∧ z ∈ ys.
Proof.
  rewrite for_extend_OK. intros (yss & Hall & ->).
  induction Hall as [|x ys l yss Hxy _ IH]; simpl.
  - split; [by intros ?%elem_of_nil|]. by intros (? & ? & ?%elem_of_nil & _).
  - rewrite elem_of_app, IH. split.
    + intros [?|(x' & ys' & ? & ? & ?)]; [exists x, ys; split; [left|done]|].
      exists x', ys'. split; [by right|done].
    + intros (x' & ys' & [->|?]%elem_of_cons & Hx' & ?).
      * left. congruence.
      * right. eauto.
Qed.

Lemma for_extend_item_succeeds {A B} (f : A → result (list B)) (l : list A) (zs : list B) x :
  for_extend f l = OK zs → x ∈ l → succeeds (f x).
Proof.
  rewrite for_extend_OK. intros (yss & Hall & _) Hx.
  induction Hall as [|x' ys l yss Hxy _ IH]; [by apply elem_of_nil in Hx|].
  apply elem_of_cons in Hx as [->|Hx]; [by eexists|by apply IH].
Qed.

Lemma for_each_item_succeeds {A B} (f : A → result B) (l : list A) (ys : list B) x :
  for_each f l = OK ys → x ∈ l → succeeds (f x).
Proof.
  rewrite for_each_OK. intros Hall Hx.
  induction Hall as [|x' y l ys' Hxy _ IH]; [by apply elem_of_nil in Hx|].
  apply elem_of_cons in Hx as [->|Hx]; [by eexists|by apply IH].
Qed.

Lemma getitem_OK `{Countable K} {V} (d : gmap K V) (k : K) (v : V) :
  getitem d k = OK v ↔ d !! k = Some v.
Proof. unfold getitem. destruct (d !! k); naive_solver. Qed.

(** ** Counting *)

Lemma Counter_foldl `{Countable K} (l : list K) (c : gmap K nat) (x : K) :
  foldl (λ c x, <[x := S (default 0 (c !! x))]> c) c l !! x =
    match occurrences x l with
    | 0 => c !! x
    | S n => Some (S n + default 0 (c !! x))
    end.
Proof.
  revert c. induction l as [|y l IH]; intros c; [done|].
  simpl. rewrite IH. unfold occurrences. rewrite filter_cons.
  destruct (decide (x = y)) as [->|Hne]; simpl.
  - rewrite lookup_insert_eq. simpl.
    destruct (length (filter (y =.) l)); f_equal; lia.
  - by rewrite lookup_insert_ne.
Qed.

Lemma Counter_lookup `{Countable K} (l : list K) (x : K) :
  Counter l !! x = match occurrences x l with 0 => None | S n => Some (S n) end.
Proof.
  unfold Counter. rewrite Counter_foldl, lookup_empty. simpl.
  destruct (occurrences x l); f_equal; lia.
Qed.

Lemma occurrences_app `{EqDecision A} (x : A) (l1 l2 : list A) :
  occurrences x (l1 ++ l2) = occurrences x l1 + occurrences x l2.
Proof. unfold occurrences. by rewrite filter_app, length_app. Qed.

Lemma occurrences_NoDup `{EqDecision A} (x : A) (l : list A) :
  NoDup l → occurrences x l = if decide (x ∈ l) then 1 else 0.
Proof.
  unfold occurrences. induction 1 as [|y l Hy Hl IH]; [done|].
  rewrite filter_cons. destruct (decide (x = y)) as [->|Hne]; simpl.
  - rewrite IH, (decide_False (P := y ∈ l)) by done.
    rewrite decide_True; [done|left].
  - rewrite IH. destruct (decide (x ∈ l)).
    + rewrite decide_True; [done|by right].
    + rewrite decide_False; [done|]. by intros [?|?]%elem_of_cons.
Qed.

Lemma length_filter_set `{Countable A} (P : A → Prop) `{!∀ x, Decision (P x)}
    (X : gset A) (l : list A) :
  l ≡ₚ elements X → length (filter P l) = size (filter P X).
Proof.
  intros Hl. unfold size, set_size. simpl. apply Permutation_length.
  apply NoDup_Permutation.
  - apply NoDup_filter. rewrite Hl. apply NoDup_elements.
  - apply NoDup_elements.
  - intros x. rewrite list_elem_of_filter, Hl, !elem_of_elements, elem_of_filter. done.
Qed.

(** ** Projection engine *)

Section projection_facts.
Context `{HashSeed}.
Context `{Countable K, Countable J}.
Variable key_lt : K → K → result bool.
Variable own : gmap K (gset J).
Variable opp : gmap J (gset K).
(** The membership relation the two indexes are built from: [rel n] is
    the set of opposite-type nodes [n] belongs to. *)
Variable rel : K → gset J.
Hypothesis own_rel : ∀ n os, own !! n = Some os → os = rel n.
Hypothesis opp_rel : ∀ o ms, opp !! o = Some ms → ∀ n, n ∈ ms ↔ o ∈ rel n.

Lemma sorted_pair_OK n m x y :
  sorted_pair key_lt n m = OK (x, y) →
  (key_lt m n = OK true ∧ x = m ∧ y = n) ∨ (key_lt m n = OK false ∧ x = n ∧ y = m).
Proof.
  unfold sorted_pair. intros (lt & Hlt & Hxy)%bind_OK.
  destruct lt; injection Hxy as <- <-; eauto.
Qed.

Lemma co_members_occurrences n l m :
  co_members own opp n = OK l →
  is_Some (own !! n) ∧ occurrences m l = size (rel n ∩ rel m).
Proof.
  unfold co_members. intros (os & Hos%getitem_OK & Hl)%bind_OK.
  split; [by eexists|]. apply own_rel in Hos as Heq. subst os.
  assert (occurrences m l = length (filter (λ o, o ∈ rel m) (set_iter (rel n)))) as ->.
  { clear Hos. revert l Hl. induction (set_iter (rel n)) as [|o os IH]; intros l; simpl.
    - by intros [= <-].
    - intros (ms & (ms' & Hms%getitem_OK & [= <-])%bind_OK
                 & (l' & Hl' & [= <-])%bind_OK)%bind_OK.
      rewrite occurrences_app, (IH l' Hl'), filter_cons.
      rewrite occurrences_NoDup
        by (rewrite set_iter_perm; apply NoDup_elements).
      pose proof (opp_rel o ms' Hms m) as Hm.
      assert (m ∈ set_iter ms' ↔ m ∈ ms') as Hiter
        by (by rewrite set_iter_perm, elem_of_elements).
      destruct (decide (m ∈ set_iter ms')), (decide (o ∈ rel m)); simpl; naive_solver. }
  rewrite (length_filter_set _ (rel n)) by apply set_iter_perm.
  f_equal. apply set_eq. intros o. rewrite elem_of_filter. set_solver.
Qed.

Lemma edges_from_spec n es :
  edges_from key_lt own opp n = OK es →
  ∀ x y w, (x, y, w) ∈ es ↔
    ∃ m, m ≠ n ∧ sorted_pair key_lt n m = OK (x, y) ∧
         w = size (rel n ∩ rel m) ∧ 0 < w.
Proof.
  unfold edges_from. intros (l & Hl & Hes)%bind_OK x y w.
  rewrite (for_each_elem_of _ _ _ _ Hes). split.
  - intros ([m k] & Hmk%elem_of_map_to_list & (st & Hst & [= <- <- <-])%bind_OK).
    simpl in *. apply lookup_delete_Some in Hmk as [Hne Hmk].
    rewrite Counter_lookup in Hmk.
    destruct (co_members_occurrences n l m Hl) as [_ Hocc].
    exists m. destruct st. repeat split; try done.
    + destruct (occurrences m l); [done|]. injection Hmk as <-. done.
    + destruct (occurrences m l); [done|]. injection Hmk as <-. lia.
  - intros (m & Hne & Hst & -> & Hpos).
    destruct (co_members_occurrences n l m Hl) as [_ Hocc].
    exists (m, size (rel n ∩ rel m)). split.
    + apply elem_of_map_to_list, lookup_delete_Some. split; [done|].
      rewrite Counter_lookup, Hocc. destruct (size _); [lia|done].
    + simpl. by rewrite Hst.
Qed.

Lemma edges_from_sorted n es m :
  edges_from key_lt own opp n = OK es → m ≠ n → 0 < size (rel n ∩ rel m) →
  succeeds (sorted_pair key_lt n m).
Proof.
  unfold edges_from. intros (l & Hl & Hes)%bind_OK Hne Hpos.
  destruct (co_members_occurrences n l m Hl) as [_ Hocc].
  destruct (for_each_item_succeeds _ _ _ (m, size (rel n ∩ rel m)) Hes) as [e He].
  { apply elem_of_map_to_list, lookup_delete_Some. split; [done|].
    rewrite Counter_lookup, Hocc. destruct (size _); [lia|done]. }
  apply bind_OK in He as (st & Hst & _). by exists st.
Qed.

Lemma projected_edges_NoDup E :
  projected_edges key_lt own opp = OK E → NoDup E.
Proof.
  unfold projected_edges. intros (es & _ & [= <-])%bind_OK.
  rewrite set_iter_perm. apply NoDup_elements.
Qed.

Lemma projected_edges_spec E :
  projected_edges key_lt own opp = OK E →
  ∀ x y w, (x, y, w) ∈ E ↔
    ∃ n m, is_Some (own !! n) ∧ m ≠ n ∧ sorted_pair key_lt n m = OK (x, y) ∧
           w = size (rel n ∩ rel m) ∧ 0 < w.
Proof.
  unfold projected_edges. intros (es & Hes & [= <-])%bind_OK x y w.
  rewrite set_iter_perm, elem_of_elements, elem_of_list_to_set.
  rewrite (for_extend_elem_of _ _ _ _ Hes). split.
  - intros (n & es' & Hn & Hes' & Hin). exists n.
    apply (edges_from_spec _ _ Hes') in Hin as (m & ? & ? & ? & ?).
    exists m. repeat split; try done.
    apply list_elem_of_fmap in Hn as ([n' os] & -> & Hn%elem_of_map_to_list).
    by eexists.
  - intros (n & m & [os Hos] & Hne & Hst & Hw & Hpos).
    assert (n ∈ (map_to_list own).*1) as Hn.
    { apply list_elem_of_fmap. exists (n, os). split; [done|].
      by apply elem_of_map_to_list. }
    destruct (for_extend_item_succeeds _ _ _ n Hes Hn) as [es' Hes'].
    exists n, es'. repeat split; try done.
    apply (edges_from_spec _ _ Hes'). eauto 6.
Qed.

Lemma projected_edges_sorted E n m :
  projected_edges key_lt own opp = OK E →
  is_Some (own !! n) → m ≠ n → 0 < size (rel n ∩ rel m) →
  succeeds (sorted_pair key_lt n m).
Proof.
  unfold projected_edges. intros (es & Hes & _)%bind_OK [os Hos] Hne Hpos.
  assert (n ∈ (map_to_list own).*1) as Hn.
  { apply list_elem_of_fmap. exists (n, os). split; [done|].
    by apply elem_of_map_to_list. }
  destruct (for_extend_item_succeeds _ _ _ n Hes Hn) as [es' Hes'].
  by eapply edges_from_sorted.
Qed.

(** An edge joins two distinct nodes, one of which is a key of [own], and
    weighs the number of opposite-type nodes they share. *)
Lemma projected_edge_between E a b w :
  projected_edges key_lt own opp = OK E →
  edge_between E a b w ↔
    a ≠ b ∧ (is_Some (own !! a) ∨ is_Some (own !! b)) ∧
    w = size (rel a ∩ rel b) ∧ 0 < w.
Proof.
  intros HE. unfold edge_between. rewrite !(projected_edges_spec E HE). split.
  - intros [(n & m & Hn & Hne & Hst & -> & Hpos)|(n & m & Hn & Hne & Hst & -> & Hpos)];
      apply sorted_pair_OK in Hst as [(_ & -> & ->)|(_ & -> & ->)];
      rewrite 1?(comm_L (∩) (rel n) (rel m)) in *; eauto 6.
  - intros (Hne & [Ha|Hb] & -> & Hpos).
    + destruct (projected_edges_sorted E a b HE Ha) as [[x y] Hxy]; [done..|].
      apply sorted_pair_OK in Hxy as Hcase.
      destruct Hcase as [(_ & -> & ->)|(_ & -> & ->)]; [right|left];
        exists a, b; eauto 6.
    + rewrite (comm_L (∩) (rel a) (rel b)) in *.
      destruct (projected_edges_sorted E b a HE Hb) as [[x y] Hxy]; [done..|].
      apply sorted_pair_OK in Hxy as Hcase.
      destruct Hcase as [(_ & -> & ->)|(_ & -> & ->)]; [left|right];
        exists b, a; eauto 6.
Qed.

(** No edge joins a node to itself. *)
Lemma projected_edges_irrefl E x y w :
  projected_edges key_lt own opp = OK E → (x, y, w) ∈ E → x ≠ y.
Proof.
  intros HE Hin. apply (projected_edges_spec E HE) in Hin
    as (n & m & _ & Hne & Hst & _).
  apply sorted_pair_OK in Hst as [(_ & -> & ->)|(_ & -> & ->)]; congruence.
Qed.

(** With a strict total order on the keys compared, the endpoints of
    every edge are in increasing order. *)
Hypothesis key_lt_total : ∀ x y, x ≠ y → key_lt y x = OK false → key_lt x y = OK true.

Lemma projected_edges_ordered E x y w :
  projected_edges key_lt own opp = OK E → (x, y, w) ∈ E → key_lt x y = OK true.
Proof.
  intros HE Hin. apply (projected_edges_spec E HE) in Hin
    as (n & m & _ & Hne & Hst & _).
  apply sorted_pair_OK in Hst as [(? & -> & ->)|(? & -> & ->)]; [done|].
  by apply key_lt_total.
Qed.
End projection_facts.

(** ** Python's order on the keys *)

Lemma str_lt_total (s t : string) : s ≠ t → (t <? s)%string = false → (s <? t)%string = true.
Proof.
  unfold String.ltb. intros Hne Hlt. rewrite String.compare_antisym.
  destruct (String.compare t s) eqn:Hc; try done.
  by apply String.compare_eq_iff in Hc as ->.
Qed.

Lemma str_lt_asym (s t : string) : (s <? t)%string = true → (t <? s)%string = false.
Proof.
  unfold String.ltb. rewrite (String.compare_antisym t s).
  by destruct (String.compare s t).
Qed.

Lemma pyval_lt_total (x y : pyval) :
  x ≠ y → pyval_lt y x = OK false → pyval_lt x y = OK true.
Proof.
  destruct x as [s|], y as [t|]; simpl; try done.
  intros Hne [= Hlt]. f_equal. apply str_lt_total; congruence.
Qed.

Lemma pyval_lt_asym (x y : pyval) :
  pyval_lt x y = OK true → pyval_lt y x = OK false.
Proof.
  destruct x as [s|], y as [t|]; simpl; try done.
  intros [= Hlt]. f_equal. by apply str_lt_asym.
Qed.

Lemma tuple_lt_total (x y : Unique) :
  x ≠ y → tuple_lt y x = OK false → tuple_lt x y = OK true.
Proof.
  destruct x as [x1 x2], y as [y1 y2]. unfold tuple_lt. simpl. intros Hne.
  repeat case_decide; simplify_eq; try done; by apply pyval_lt_total.
Qed.

Lemma tuple_lt_asym (x y : Unique) :
  tuple_lt x y = OK true → tuple_lt y x = OK false.
Proof.
  destruct x as [x1 x2], y as [y1 y2]. unfold tuple_lt. simpl.
  repeat case_decide; simplify_eq; try done; by apply pyval_lt_asym.
Qed.

(** The comparisons succeed on keys without a missing component. *)
Lemma pyval_lt_succeeds (s t : string) : succeeds (pyval_lt (Some s) (Some t)).
Proof. by eexists. Qed.

Lemma tuple_lt_succeeds (s1 s2 t1 t2 : string) :
  succeeds (tuple_lt (Some s1, Some s2) (Some t1, Some t2)).
Proof. unfold tuple_lt. simpl. repeat case_decide; by eexists. Qed.

(** ** Membership index *)

Lemma elem_of_companies_of df a c :
  c ∈ companies_of df a ↔ (a, c) ∈ memberships df.
Proof.
  unfold companies_of, memberships. rewrite !elem_of_list_to_set, !list_elem_of_fmap.
  setoid_rewrite list_elem_of_filter. naive_solver.
Qed.

Lemma elem_of_officers_of df c a :
  a ∈ officers_of df c ↔ (a, c) ∈ memberships df.
Proof.
  unfold officers_of, memberships. rewrite !elem_of_list_to_set, !list_elem_of_fmap.
  setoid_rewrite list_elem_of_filter. naive_solver.
Qed.

Lemma elem_of_memberships df a c :
  (a, c) ∈ memberships df ↔ ∃ row, row ∈ df ∧ OfficerUnique row = a ∧ CorpId row = c.
Proof.
  unfold memberships. rewrite elem_of_list_to_set, list_elem_of_fmap. naive_solver.
Qed.

Lemma groupby_set_lookup `{Countable K, Countable V}
    (key : Row → K) (isna : K → bool) (col : Row → V) (df : list Row) (k : K) :
  groupby_set key isna col df !! k =
    let X : gset V := list_to_set (col <$> filter (λ row, key row = k) df) in
    if isna k then None else if decide (X = ∅) then None else Some X.
Proof.
  induction df as [|row df IH]; simpl.
  - rewrite lookup_empty. by destruct (isna k).
  - rewrite filter_cons. destruct (decide (key row = k)) as [<-|Hne].
    + destruct (isna (key row)) eqn:Hna.
      * done.
      * rewrite lookup_insert_eq, IH. simpl. fold (@fmap list _ Row V col).
        rewrite (decide_False (P := {[col row]} ∪ _ = ∅)) by set_solver. f_equal.
        case_decide as HX; simpl; [by rewrite HX|done].
    + destruct (isna (key row)) eqn:Hna; [done|].
      by rewrite lookup_insert_ne.
Qed.

Lemma companies_by_officer_lookup df a :
  companies_by_officer df !! a =
    if decide (companies_of df a = ∅) then None else Some (companies_of df a).
Proof. unfold companies_by_officer. by rewrite groupby_set_lookup. Qed.

Lemma officers_by_company_lookup df c :
  officers_by_company df !! c =
    if c is None then None
    else if decide (officers_of df c = ∅) then None else Some (officers_of df c).
Proof.
  unfold officers_by_company. rewrite groupby_set_lookup. by destruct c.
Qed.

Lemma companies_by_officer_Some df a cs :
  companies_by_officer df !! a = Some cs → cs = companies_of df a.
Proof. rewrite companies_by_officer_lookup. case_decide; congruence. Qed.

Lemma officers_by_company_Some df c us :
  officers_by_company df !! c = Some us → us = officers_of df c.
Proof.
  rewrite officers_by_company_lookup. destruct c; [|done]. case_decide; congruence.
Qed.



Lemma size_pos_iff `{Countable A} (X : gset A) : 0 < size X ↔ X ≠ ∅.
Proof.
  pose proof (size_non_empty_iff X) as Hne. unfold_leibniz. rewrite <-Hne. lia.
Qed.

Section projection_order.
Context `{HashSeed}.
Context `{Countable K, Countable J}.
Variable key_lt : K → K → result bool.
Variable own : gmap K (gset J).
Variable opp : gmap J (gset K).
Variable rel : K → gset J.
Hypothesis own_rel : ∀ n os, own !! n = Some os → os = rel n.
Hypothesis opp_rel : ∀ o ms, opp !! o = Some ms → ∀ n, n ∈ ms ↔ o ∈ rel n.
Hypothesis key_lt_total : ∀ x y, x ≠ y → key_lt y x = OK false → key_lt x y = OK true.
Hypothesis key_lt_asym : ∀ x y, key_lt x y = OK true → key_lt y x = OK false.

(** The weight counted from [a] for [b] is the weight counted from [b]
    for [a]. *)
Lemma co_members_symmetric a b la lb :
  co_members own opp a = OK la → co_members own opp b = OK lb →
  Counter la !! b = Counter lb !! a.
Proof.
  intros Ha Hb. rewrite !Counter_lookup.
  destruct (co_members_occurrences key_lt own opp rel own_rel opp_rel a la b Ha) as [_ ->].
  destruct (co_members_occurrences key_lt own opp rel own_rel opp_rel b lb a Hb) as [_ ->].
  by rewrite (comm_L (∩) (rel a) (rel b)).
Qed.

(** Two stored edges on the same unordered pair are the same edge. *)
Lemma projected_edges_unique E x y w x' y' w' :
  projected_edges key_lt own opp = OK E →
  (x, y, w) ∈ E → (x', y', w') ∈ E →
  (x = x' ∧ y = y') ∨ (x = y' ∧ y = x') →
  (x', y', w') = (x, y, w).
Proof.
  intros HE Hin Hin' Hsame.
  pose proof (projected_edges_ordered key_lt own opp rel own_rel opp_rel
                key_lt_total E _ _ _ HE Hin) as Hlt.
  pose proof (projected_edges_ordered key_lt own opp rel own_rel opp_rel
                key_lt_total E _ _ _ HE Hin') as Hlt'.
  destruct Hsame as [[-> ->]|[-> ->]].
  - assert (edge_between E x' y' w) as Hw by (by left).
    assert (edge_between E x' y' w') as Hw' by (by left).
    apply (projected_edge_between key_lt own opp rel own_rel opp_rel E _ _ _ HE)
      in Hw as (_ & _ & -> & _).
    apply (projected_edge_between key_lt own opp rel own_rel opp_rel E _ _ _ HE)
      in Hw' as (_ & _ & -> & _).
    done.
  - apply key_lt_asym in Hlt. congruence.
Qed.

(** The projection raises no exception when every opposite-type node met
    is a key of [opp] and the keys that co-occur compare. *)
Lemma projected_edges_succeeds :
  (∀ n os o, own !! n = Some os → o ∈ os → is_Some (opp !! o)) →
  (∀ n m o, is_Some (own !! n) → o ∈ rel n → o ∈ rel m → m ≠ n →
     succeeds (key_lt m n)) →
  succeeds (projected_edges key_lt own opp).
Proof.
  intros Hopp Hlt. unfold projected_edges.
  destruct (for_extend_succeeds (edges_from key_lt own opp) (map_to_list own).*1)
    as [es Hes]; [|rewrite Hes; by eexists].
  intros ? ([n os] & -> & Hn%elem_of_map_to_list)%list_elem_of_fmap. simpl in *.
  unfold edges_from.
  assert (succeeds (co_members own opp n)) as [l Hl].
  { unfold co_members. rewrite (proj2 (getitem_OK own n os) Hn). simpl.
    apply for_extend_succeeds. intros o Ho.
    rewrite set_iter_perm, elem_of_elements in Ho.
    destruct (Hopp n os o Hn Ho) as [ms Hms].
    unfold getitem. rewrite Hms. by eexists. }
  rewrite Hl. simpl. apply for_each_succeeds.
  intros [m k] [Hne Hmk]%elem_of_map_to_list%lookup_delete_Some. simpl.
  rewrite Counter_lookup in Hmk.
  destruct (co_members_occurrences key_lt own opp rel own_rel opp_rel n l m Hl) as [_ Hocc].
  assert (0 < size (rel n ∩ rel m)) as Hpos.
  { rewrite <-Hocc. destruct (occurrences m l); [done|lia]. }
  apply size_pos_elem_of in Hpos as [o [Hon Hom]%elem_of_intersection].
  destruct (Hlt n m o) as [lt Hlt']; [by eexists|done..|].
  unfold sorted_pair. rewrite Hlt'. by eexists.
Qed.
End projection_order.

(** The two indexes of the script against the membership sets. *)
Lemma officer_own_rel df n os :
  companies_by_officer df !! n = Some os → os = companies_of df n.
Proof. apply companies_by_officer_Some. Qed.

Lemma officer_opp_rel df o ms :
  officers_by_company df !! o = Some ms → ∀ n, n ∈ ms ↔ o ∈ companies_of df n.
Proof.
  intros ->%officers_by_company_Some n.
  by rewrite elem_of_officers_of, elem_of_companies_of.
Qed.

Lemma corp_own_rel df n os :
  officers_by_company df !! n = Some os → os = officers_of df n.
Proof. apply officers_by_company_Some. Qed.

Lemma corp_opp_rel df o ms :
  companies_by_officer df !! o = Some ms → ∀ n, n ∈ ms ↔ o ∈ officers_of df n.
Proof.
  intros ->%companies_by_officer_Some n.
  by rewrite elem_of_officers_of, elem_of_companies_of.
Qed.

Lemma companies_by_officer_is_Some df a :
  is_Some (companies_by_officer df !! a) ↔ companies_of df a ≠ ∅.
Proof.
  rewrite companies_by_officer_lookup. case_decide; [|by split; eauto].
  split; [by intros [? ?]|done].
Qed.

Lemma officers_by_company_is_Some df c :
  is_Some (officers_by_company df !! c) ↔ c ≠ None ∧ officers_of df c ≠ ∅.
Proof.
  rewrite officers_by_company_lookup. destruct c as [s|].
  - case_decide; [|by split; eauto]. split; [by intros [? ?]|by intros [_ ?]].
  - split; [by intros [? ?]|by intros [? _]].
Qed.

(** ** Weights, normal form and self-loops of the projected edges *)

Section officer_projection.
Context `{HashSeed}.
Variable df : list Row.
Variable E : list (Unique * Unique * nat).
Hypothesis HE : officer_edges df = OK E.

Lemma officer_edge_between a b w :
  edge_between E a b w ↔
    a ≠ b ∧ w = size (companies_of df a ∩ companies_of df b) ∧ 0 < w.
Proof.
  rewrite (projected_edge_between tuple_lt _ _ (companies_of df)
             (officer_own_rel df) (officer_opp_rel df) E a b w HE).
  split; [naive_solver|]. intros (? & -> & Hpos). repeat split; try done.
  left. apply companies_by_officer_is_Some.
  apply size_pos_iff in Hpos. set_solver.
Qed.

Lemma officer_edges_ordered x y w : (x, y, w) ∈ E → tuple_lt x y = OK true.
Proof.
  apply (projected_edges_ordered tuple_lt _ _ (companies_of df)
           (officer_own_rel df) (officer_opp_rel df) tuple_lt_total E x y w HE).
Qed.

Lemma officer_edges_unique x y w x' y' w' :
  (x, y, w) ∈ E → (x', y', w') ∈ E →
  (x = x' ∧ y = y') ∨ (x = y' ∧ y = x') → (x', y', w') = (x, y, w).
Proof.
  apply (projected_edges_unique tuple_lt _ _ (companies_of df)
           (officer_own_rel df) (officer_opp_rel df) tuple_lt_total tuple_lt_asym
           E x y w x' y' w' HE).
Qed.

Lemma officer_edges_irrefl x y w : (x, y, w) ∈ E → x ≠ y.
Proof.
  apply (projected_edges_irrefl tuple_lt _ _ (companies_of df)
           (officer_own_rel df) (officer_opp_rel df) E x y w HE).
Qed.
End officer_projection.

Section corp_projection.
Context `{HashSeed}.
Variable df : list Row.
Variable E : list (pyval * pyval * nat).
Hypothesis HE : corp_edges df = OK E.

Lemma corp_edge_between a b w :
  edge_between E a b w ↔
    a ≠ b ∧ w = size (officers_of df a ∩ officers_of df b) ∧ 0 < w.
Proof.
  rewrite (projected_edge_between pyval_lt _ _ (officers_of df)
             (corp_own_rel df) (corp_opp_rel df) E a b w HE).
  split; [naive_solver|]. intros (Hne & -> & Hpos). repeat split; try done.
  apply size_pos_iff in Hpos.
  destruct a as [s|]; [left|right]; apply officers_by_company_is_Some.
  - set_solver.
  - destruct b; [|done]. set_solver.
Qed.

Lemma corp_edges_ordered x y w : (x, y, w) ∈ E → pyval_lt x y = OK true.
Proof.
  apply (projected_edges_ordered pyval_lt _ _ (officers_of df)
           (corp_own_rel df) (corp_opp_rel df) pyval_lt_total E x y w HE).
Qed.

Lemma corp_edges_unique x y w x' y' w' :
  (x, y, w) ∈ E → (x', y', w') ∈ E →
  (x = x' ∧ y = y') ∨ (x = y' ∧ y = x') → (x', y', w') = (x, y, w).
Proof.
  apply (projected_edges_unique pyval_lt _ _ (officers_of df)
           (corp_own_rel df) (corp_opp_rel df) pyval_lt_total pyval_lt_asym
           E x y w x' y' w' HE).
Qed.

Lemma corp_edges_irrefl x y w : (x, y, w) ∈ E → x ≠ y.
Proof.
  apply (projected_edges_irrefl pyval_lt _ _ (officers_of df)
           (corp_own_rel df) (corp_opp_rel df) E x y w HE).
Qed.
End corp_projection.

(** C5 (normal form and symmetry). The deduplicated edge list holds no
    triple twice; the endpoints of every edge are in increasing order for
    Python's [<] on the keys; two edges on the same unordered pair are one
    and the same triple; and the weight counted from [a] for [b] is the
    weight counted from [b] for [a]. This holds for both projections. *)
Theorem edges_normalized `{HashSeed} (df : list Row) :
  (∀ E, officer_edges df = OK E →
     NoDup E ∧
     (∀ x y w, (x, y, w) ∈ E → tuple_lt x y = OK true) ∧
     (∀ x y w x' y' w', (x, y, w) ∈ E → (x', y', w') ∈ E →
        (x = x' ∧ y = y') ∨ (x = y' ∧ y = x') → (x', y', w') = (x, y, w))) ∧
  (∀ a b la lb,
     co_members (companies_by_officer df) (officers_by_company df) a = OK la →
     co_members (companies_by_officer df) (officers_by_company df) b = OK lb →
     Counter la !! b = Counter lb !! a) ∧
  (∀ E, corp_edges df = OK E →
     NoDup E ∧
     (∀ x y w, (x, y, w) ∈ E → pyval_lt x y = OK true) ∧
     (∀ x y w x' y' w', (x, y, w) ∈ E → (x', y', w') ∈ E →
        (x = x' ∧ y = y') ∨ (x = y' ∧ y = x') → (x', y', w') = (x, y, w))) ∧
  (∀ a b la lb,
     co_members (officers_by_company df) (companies_by_officer df) a = OK la →
     co_members (officers_by_company df) (companies_by_officer df) b = OK lb →
     Counter la !! b = Counter lb !! a).
Proof.
  repeat split.
  - by eapply projected_edges_NoDup.
  - by apply (officer_edges_ordered df E).
  - by apply (officer_edges_unique df E).
  - apply (co_members_symmetric tuple_lt _ _ (companies_of df)
             (officer_own_rel df) (officer_opp_rel df)).
  - by eapply projected_edges_NoDup.
  - by apply (corp_edges_ordered df E).
  - by apply (corp_edges_unique df E).
  - apply (co_members_symmetric pyval_lt _ _ (officers_of df)
             (corp_own_rel df) (corp_opp_rel df)).
Qed.

Lemma edges_normalized_witness :
  NoDup [(O2, O3, 1); (O1, O2, 1); (O1, O4, 1); (O3, O4, 1); (O1, O3, 1)] ∧
  Counter [O4; O1; O3; O2; O1] !! O3 = Counter [O4; O1; O3; O2; O3] !! O1.
Proof.
  destruct (edges_normalized (H := seed_up) (rows_of three_companies))
    as (Hofficers & Hsym & _).
  split.
  - apply (Hofficers [(O2, O3, 1); (O1, O2, 1); (O1, O4, 1); (O3, O4, 1); (O1, O3, 1)]).
    vm_compute. reflexivity.
  - apply (Hsym O1 O3); vm_compute; reflexivity.
Defined.

(** No edge of the officer projection and no edge of the company
    projection has equal endpoints. *)
Lemma projections_irreflexive `{HashSeed} (df : list Row) :
  (∀ E x y w, officer_edges df = OK E → (x, y, w) ∈ E → x ≠ y) ∧
  (∀ E x y w, corp_edges df = OK E → (x, y, w) ∈ E → x ≠ y).
Proof.
  split; intros E x y w HE.
  - by apply (officer_edges_irrefl df E).
  - by apply (corp_edges_irrefl df E).
Qed.

(** The projections raise no exception on rows whose corp_id and identity
    components are all present. *)
Lemma projections_succeed `{HashSeed} (df : list Row) :
  Forall complete_row df → succeeds (officer_edges df) ∧ succeeds (corp_edges df).
Proof.
  rewrite Forall_forall. intros Hdf. split.
  - apply (projected_edges_succeeds tuple_lt _ _ (companies_of df)
             (officer_own_rel df) (officer_opp_rel df)).
    + intros n os o ->%companies_by_officer_Some
        (row & Hrow & Hn & Ho)%elem_of_companies_of%elem_of_memberships.
      apply officers_by_company_is_Some. split.
      * destruct (Hdf row Hrow) as ([c Hc] & _). congruence.
      * assert (n ∈ officers_of df o); [|set_solver].
        apply elem_of_officers_of, elem_of_memberships. eauto.
    + intros n m o _
        (rn & Hrn & <- & _)%elem_of_companies_of%elem_of_memberships
        (rm & Hrm & <- & _)%elem_of_companies_of%elem_of_memberships _.
      destruct (Hdf rn Hrn) as (_ & [n1 Hn1] & [n2 Hn2]).
      destruct (Hdf rm Hrm) as (_ & [m1 Hm1] & [m2 Hm2]).
      unfold OfficerUnique. rewrite Hn1, Hn2, Hm1, Hm2. apply tuple_lt_succeeds.
  - apply (projected_edges_succeeds pyval_lt _ _ (officers_of df)
             (corp_own_rel df) (corp_opp_rel df)).
    + intros n os o ->%officers_by_company_Some Ho.
      apply companies_by_officer_is_Some.
      assert (n ∈ companies_of df o); [|set_solver].
      by rewrite elem_of_companies_of, <-elem_of_officers_of.
    + intros n m o _
        (rn & Hrn & _ & <-)%elem_of_officers_of%elem_of_memberships
        (rm & Hrm & _ & <-)%elem_of_officers_of%elem_of_memberships _.
      destruct (Hdf rn Hrn) as ([n1 Hn1] & _).
      destruct (Hdf rm Hrm) as ([m1 Hm1] & _).
      rewrite Hn1, Hm1. apply pyval_lt_succeeds.
Qed.

(** A row without corp_id makes the officer projection raise: its
    identity keeps [None] among its companies, and [None] is no key of
    [officers_by_company]. *)
Lemma officer_edges_CorpId `{HashSeed} (df : list Row) E row :
  officer_edges df = OK E → row ∈ df → CorpId row ≠ None.
Proof.
  unfold officer_edges, projected_edges.
  intros (es & Hes & _)%bind_OK Hrow Hnone.
  set (n := OfficerUnique row).
  assert (None ∈ companies_of df n) as Hin.
  { apply elem_of_companies_of, elem_of_memberships. eauto. }
  assert (companies_by_officer df !! n = Some (companies_of df n)) as Hn.
  { rewrite companies_by_officer_lookup. rewrite decide_False; [done|set_solver]. }
  destruct (for_extend_item_succeeds _ _ _ n Hes) as [es' Hes'].
  { apply list_elem_of_fmap. exists (n, companies_of df n). split; [done|].
    by apply elem_of_map_to_list. }
  unfold edges_from in Hes'. apply bind_OK in Hes' as (l & Hl & _).
  unfold co_members in Hl. apply bind_OK in Hl as (os & Hos%getitem_OK & Hl).
  rewrite Hn in Hos. injection Hos as <-.
  destruct (for_extend_item_succeeds _ _ _ None Hl) as [ms Hms].
  { by rewrite set_iter_perm, elem_of_elements. }
  apply bind_OK in Hms as (ms' & Hms'%getitem_OK & _).
  by rewrite officers_by_company_lookup in Hms'.
Qed.

(** ** When the projections return *)

Lemma officer_edges_succeeds_iff `{HashSeed} (df : list Row) :
  succeeds (officer_edges df) ↔
    (∀ row, row ∈ df → CorpId row ≠ None) ∧
    (∀ a b, a ≠ b → companies_of df a ∩ companies_of df b ≠ ∅ →
       succeeds (tuple_lt a b)).
Proof.
  split.
  - intros [E HE]. split; [intros row; by apply (officer_edges_CorpId df E)|].
    intros a b Hne Hshare%size_pos_iff.
    assert (is_Some (companies_by_officer df !! b)) as Hb.
    { apply companies_by_officer_is_Some. intros Hempty.
      rewrite Hempty, (right_absorb_L ∅ (∩)), size_empty in Hshare. lia. }
    rewrite (comm_L (∩)) in Hshare.
    destruct (projected_edges_sorted tuple_lt _ _ (companies_of df)
                (officer_own_rel df) (officer_opp_rel df) E b a HE Hb Hne Hshare)
      as [st (lt & Hlt & _)%bind_OK].
    by exists lt.
  - intros [Hcorp Hlt].
    apply (projected_edges_succeeds tuple_lt _ _ (companies_of df)
             (officer_own_rel df) (officer_opp_rel df)).
    + intros n os o ->%companies_by_officer_Some
        (row & Hrow & Hn & Ho)%elem_of_companies_of%elem_of_memberships.
      apply officers_by_company_is_Some. split.
      * rewrite <-Ho. by apply Hcorp.
      * assert (n ∈ officers_of df o); [|set_solver].
        apply elem_of_officers_of, elem_of_memberships. eauto.
    + intros n m o _ Hn Hm Hne. apply Hlt; [done|]. set_solver.
Qed.

Lemma corp_edges_succeeds_iff `{HashSeed} (df : list Row) :
  succeeds (corp_edges df) ↔
    ∀ c, c ≠ None → officers_of df c ∩ officers_of df None = ∅.
Proof.
  split.
  - intros [E HE] c Hc. apply dec_stable. intros Hshare.
    assert (is_Some (officers_by_company df !! c)) as Hkey.
    { apply officers_by_company_is_Some. split; [done|]. intros Hempty.
      apply Hshare. rewrite Hempty. apply (left_absorb_L ∅ (∩)). }
    apply size_pos_iff in Hshare.
    destruct (projected_edges_sorted pyval_lt _ _ (officers_of df)
                (corp_own_rel df) (corp_opp_rel df) E c None HE Hkey)
      as [st (lt & Hlt & _)%bind_OK]; [done..|].
    by destruct c.
  - intros Hnone.
    apply (projected_edges_succeeds pyval_lt _ _ (officers_of df)
             (corp_own_rel df) (corp_opp_rel df)).
    + intros n os o ->%officers_by_company_Some Ho.
      apply companies_by_officer_is_Some.
      assert (n ∈ companies_of df o); [|set_solver].
      by rewrite elem_of_companies_of, <-elem_of_officers_of.
    + intros n m o [Hn _]%officers_by_company_is_Some Hon Hom _.
      destruct n as [s|]; [|done]. destruct m as [t|]; [apply pyval_lt_succeeds|].
      exfalso. apply (not_elem_of_empty (C := gset Unique) o).
      rewrite <-(Hnone (Some s) Hn). by apply elem_of_intersection.
Qed.



(** ** Lookup tables *)

Lemma dict_zip_snoc `{Countable K} {V} (kvs : list (K * V)) (kv : K * V) :
  dict_zip (kvs ++ [kv]) = <[kv.1 := kv.2]> (dict_zip kvs).
Proof. unfold dict_zip. by rewrite foldl_app. Qed.

(** [dict(zip(keys, values))[k]] is the value of the last pair of key [k]. *)
Lemma dict_zip_lookup `{Countable K} {V} (kvs : list (K * V)) (k : K) :
  dict_zip kvs !! k = snd <$> last (filter (λ kv, kv.1 = k) kvs).
Proof.
  induction kvs as [|kv kvs IH] using rev_ind; [done|].
  rewrite dict_zip_snoc, filter_app, filter_cons, filter_nil.
  destruct (decide (kv.1 = k)) as [<-|Hne].
  - by rewrite lookup_insert_eq, last_snoc.
  - by rewrite lookup_insert_ne, app_nil_r.
Qed.

Lemma dict_zip_fmap_lookup `{Countable K} {A V} (f : A → K) (g : A → V) (l : list A) (k : K) :
  dict_zip ((λ x, (f x, g x)) <$> l) !! k = g <$> last (filter (λ x, f x = k) l).
Proof.
  rewrite dict_zip_lookup.
  induction l as [|x l IH] using rev_ind; [done|].
  rewrite fmap_app, !filter_app. simpl. rewrite !filter_cons, !filter_nil. simpl.
  destruct (decide (f x = k)).
  - by rewrite !last_snoc.
  - by rewrite !app_nil_r.
Qed.

(** The display names, when [strip] raised on no row. *)
Lemma unique_to_name_OK df utn :
  unique_to_name df = OK utn →
  Forall (λ row, is_Some (FullName row)) df ∧
  utn = dict_zip ((λ row, (Some (OfficerUnique row), strip (default "" (FullName row))))
                    <$> df).
Proof.
  unfold unique_to_name. intros (names & Hnames%for_each_OK & [= <-])%bind_OK.
  assert (Forall (λ row, is_Some (FullName row)) df ∧
          names = (λ row, strip (default "" (FullName row))) <$> df) as [Hall ->].
  { induction Hnames as [|row s df names Hrow _ [IH1 IH2]]; [by split|].
    destruct (FullName row) as [name|] eqn:Hname; [|done].
    injection Hrow as <-. split; [constructor; [by eexists|done]|].
    simpl. by rewrite Hname, IH2. }
  split; [done|]. f_equal. clear. induction df as [|row df IH]; [done|].
  simpl. f_equal. apply IH.
Qed.

Lemma unique_to_name_lookup df utn (u : Unique) :
  unique_to_name df = OK utn →
  utn !! Some u =
    last (filter (λ row, OfficerUnique row = u) df) ≫= λ row, strip <$> FullName row.
Proof.
  intros [Hall ->]%unique_to_name_OK. rewrite dict_zip_fmap_lookup.
  rewrite (list_filter_iff _ (λ row, OfficerUnique row = u)) by naive_solver.
  destruct (last _) as [row|] eqn:Hlast; [|done]. simpl.
  apply last_Some_elem_of, list_elem_of_filter in Hlast as [_ Hrow].
  rewrite Forall_forall in Hall. by destruct (Hall row Hrow) as [name ->].
Qed.

Lemma unique_to_name_None df utn :
  unique_to_name df = OK utn → utn !! None = None.
Proof.
  intros [_ ->]%unique_to_name_OK. rewrite dict_zip_fmap_lookup.
  rewrite (list_filter_iff _ (λ _, False)) by naive_solver.
  by induction df.
Qed.

Lemma unique_to_name_succeeds df :
  Forall (λ row, is_Some (FullName row)) df → succeeds (unique_to_name df).
Proof.
  rewrite Forall_forall. intros Hall. unfold unique_to_name.
  destruct (for_each_succeeds
    (λ row, match FullName row with Some s => OK (strip s) | None => Raise AttributeError end)
    df) as [names Hnames].
  - intros row [name Hname]%Hall. rewrite Hname. by eexists.
  - rewrite Hnames. by eexists.
Qed.

Lemma corpid_to_company_name_lookup df c :
  corpid_to_company_name df !! c = CompanyName <$> last (filter (λ row, CorpId row = c) df).
Proof. apply dict_zip_fmap_lookup. Qed.

Lemma corpid_to_alt_name_lookup df c :
  corpid_to_alt_name df !! c = AltName <$> last (filter (λ row, CorpId row = c) df).
Proof. apply dict_zip_fmap_lookup. Qed.

(** No corp_id is missing once the officer projection went through, so
    [None] is no key of the company names. *)
Lemma corpid_to_company_name_None `{HashSeed} df E :
  officer_edges df = OK E → corpid_to_company_name df !! None = None.
Proof.
  intros HE. rewrite corpid_to_company_name_lookup.
  destruct (last _) as [row|] eqn:Hlast; [|done].
  apply last_Some_elem_of, list_elem_of_filter in Hlast as [Hnone Hrow].
  by destruct (officer_edges_CorpId df E row HE Hrow).
Qed.

(** ** Record loader *)

Lemma for_each_Raise {A B} (f : A → result B) (l : list A) (e : exn) x :
  x ∈ l → f x = Raise e → (∀ y e', f y = Raise e' → e' = e) →
  for_each f l = Raise e.
Proof.
  intros Hx Hfx Honly. induction l as [|y l IH]; [by apply elem_of_nil in Hx|].
  simpl. destruct (f y) as [b|e'] eqn:Hy; simpl.
  - apply elem_of_cons in Hx as [->|Hx]; [congruence|].
    by rewrite (IH Hx).
  - f_equal. by eapply Honly.
Qed.



(** ** Lookup tables: the last value wins *)

Example strip_example : strip "  Ann One " = "Ann One".
Proof. reflexivity. Qed.

(** A name between a no-break space, U+00A0, and an ideographic space,
    U+3000. *)
Example strip_wide_example :
  strip (String (ascii_of_nat 194) (String (ascii_of_nat 160)
           ("Ann" +:+ String (ascii_of_nat 227) (String (ascii_of_nat 128)
                        (String (ascii_of_nat 128) EmptyString)))))
  = "Ann".
Proof. reflexivity. Qed.

(** C3, as the code has it. The display name of an identity is the
    trimmed [FullName] of the last row of that identity, and the company
    name and alternative name of a corp_id are those of the last row of
    that corp_id: [dict(zip(...))] lets a later row overwrite an earlier
    one. *)
Theorem lookup_tables_last_wins (df : list Row) :
  (∀ utn u, unique_to_name df = OK utn →
     utn !! Some u =
       last (filter (λ row, OfficerUnique row = u) df) ≫= λ row, strip <$> FullName row) ∧
  (∀ c, corpid_to_company_name df !! c =
          CompanyName <$> last (filter (λ row, CorpId row = c) df)) ∧
  (∀ c, corpid_to_alt_name df !! c =
          AltName <$> last (filter (λ row, CorpId row = c) df)).
Proof.
  split; [|split].
  - intros utn u Hutn. by apply unique_to_name_lookup.
  - apply corpid_to_company_name_lookup.
  - apply corpid_to_alt_name_lookup.
Qed.

Lemma lookup_tables_last_wins_witness :
  ∃ utn, unique_to_name (rows_of respelled) = OK utn ∧
    utn !! Some (Some "ANN", Some "1") = Some "Ann Two".
Proof.
  destruct (unique_to_name_succeeds (rows_of respelled)) as [utn Hutn].
  { repeat constructor; by eexists. }
  exists utn. split; [done|].
  destruct (lookup_tables_last_wins (rows_of respelled)) as (Hname & _).
  rewrite (Hname utn _ Hutn). vm_compute. reflexivity.
Defined.

(** C3 as stated fails: the officer ANN is first met as "Ann One" and the
    company C6 as "Old name", and the tables hold "Ann Two" and
    "New name". *)
Lemma first_value_does_not_win :
  ∃ utn, unique_to_name (rows_of respelled) = OK utn ∧
    (head (filter (λ row, OfficerUnique row = (Some "ANN", Some "1")) (rows_of respelled))
       ≫= λ row, strip <$> FullName row) = Some "Ann One" ∧
    utn !! Some (Some "ANN", Some "1") ≠ Some "Ann One" ∧
    CompanyName <$> head (filter (λ row, CorpId row = Some "C6") (rows_of respelled))
      = Some (Some "Old name") ∧
    corpid_to_company_name (rows_of respelled) !! Some "C6" ≠ Some (Some "Old name").
Proof.
  destruct (unique_to_name_succeeds (rows_of respelled)) as [utn Hutn].
  { repeat constructor; by eexists. }
  exists utn. split; [done|]. split; [vm_compute; reflexivity|]. split.
  - rewrite (unique_to_name_lookup _ _ _ Hutn). vm_compute. discriminate.
  - split; [vm_compute; reflexivity|].
    rewrite corpid_to_company_name_lookup. vm_compute. discriminate.
Qed.

(** ** Attribute summarizers *)

Lemma top3_length {P} (none : P) (l : list P) : length (top3 none l) = 3.
Proof. unfold top3. rewrite length_app, length_take, length_replicate. lia. Qed.

Lemma top3_lookup_lt {P} (none : P) (l : list P) (i : nat) :
  i < 3 → i < length l → top3 none l !! i = l !! i.
Proof.
  intros Hi Hl. unfold top3.
  rewrite lookup_app_l by (rewrite length_take; lia).
  apply lookup_take_lt. lia.
Qed.

Lemma top3_lookup_ge {P} (none : P) (l : list P) (i : nat) :
  i < 3 → (length l ≤ i)%nat → top3 none l !! i = Some none.
Proof.
  intros Hi Hl. unfold top3.
  rewrite lookup_app_r by (rewrite length_take; lia).
  apply lookup_replicate_2. rewrite length_take. lia.
Qed.

Lemma insert_desc_perm {A} (x : A * nat) (l : list (A * nat)) :
  insert_desc x l ≡ₚ x :: l.
Proof.
  induction l as [|y l IH]; simpl; [done|].
  case_decide; [|done]. rewrite IH. apply Permutation_swap.
Qed.

Lemma sorted_desc_perm {A} (l : list (A * nat)) : sorted_desc l ≡ₚ l.
Proof.
  induction l as [|x l IH]; simpl; [done|].
  by rewrite insert_desc_perm, IH.
Qed.

Lemma for_each_popularity `{Countable K, Countable V}
    (index : gmap K (gset V)) (l : list K) (d : list (K * nat)) :
  for_each (λ k, vs ← getitem index k; OK (k, size vs)) l = OK d ↔
    (∀ k, k ∈ l → is_Some (index !! k)) ∧ d = popularity index <$> l.
Proof.
  rewrite for_each_OK. split.
  - induction 1 as [|k item l d Hk _ [IH1 IH2]]; [split; [by intros ? ?%elem_of_nil|done]|].
    apply bind_OK in Hk as (vs & Hvs%getitem_OK & [= <-]). split.
    + intros k' [->|?]%elem_of_cons; [by eexists|by apply IH1].
    + simpl. unfold popularity at 1. by rewrite Hvs, IH2.
  - intros [Hall ->]. induction l as [|k l IH]; [constructor|].
    simpl. constructor.
    + destruct (Hall k) as [vs Hvs]; [left|].
      apply bind_OK. exists vs. split; [by apply getitem_OK|].
      unfold popularity. by rewrite Hvs.
    + apply IH. intros k' Hk'. apply Hall. by right.
Qed.

Lemma for_each_popularity_Raise `{Countable K, Countable V}
    (index : gmap K (gset V)) (l : list K) (e : exn) :
  for_each (λ k, vs ← getitem index k; OK (k, size vs)) l = Raise e → e = KeyError.
Proof.
  induction l as [|k l IH]; [done|]. simpl.
  destruct (getitem index k) as [vs|e'] eqn:Hk; simpl.
  - destruct (for_each _ l) as [d|e'] eqn:Hl; simpl; [done|]. intros [= ->]. by apply IH.
  - unfold getitem in Hk. destruct (index !! k); [done|]. by intros [= <-]; injection Hk.
Qed.

Section summarizer_facts.
Context `{HashSeed}.
Variable obc : gmap pyval (gset Unique).
Variable cbo : gmap Unique (gset pyval).
Variable utn : gmap (option Unique) string.
Variable ctn : gmap pyval pyval.

Lemma get_most_popular_officers_OK corpid names :
  get_most_popular_officers obc cbo utn corpid = OK names ↔
    ∃ officers, obc !! corpid = Some officers ∧
      (∀ o, o ∈ officers → is_Some (cbo !! o)) ∧
      names = (λ name, dict_get utn name "") <$>
                top3 None (Some <$> (sorted_desc (popularity cbo <$> set_iter officers)).*1).
Proof.
  unfold get_most_popular_officers. rewrite bind_OK.
  setoid_rewrite bind_OK. setoid_rewrite getitem_OK.
  setoid_rewrite for_each_popularity. split.
  - intros (officers & Hobc & d & [Hall ->] & [= <-]). exists officers.
    repeat split; [done|]. intros o Ho. apply Hall.
    by rewrite set_iter_perm, elem_of_elements.
  - intros (officers & Hobc & Hall & ->). exists officers. split; [done|].
    eexists. split; [split; [|done]|done].
    intros o Ho. apply Hall. by rewrite set_iter_perm, elem_of_elements in Ho.
Qed.

Lemma get_most_popular_companies_OK unique names :
  get_most_popular_companies obc cbo ctn unique = OK names ↔
    ∃ corpids, cbo !! unique = Some corpids ∧
      (∀ c, c ∈ corpids → is_Some (obc !! c)) ∧
      names = (λ name, dict_get ctn name (Some "")) <$>
                top3 None (sorted_desc (popularity obc <$> set_iter corpids)).*1.
Proof.
  unfold get_most_popular_companies. rewrite bind_OK.
  setoid_rewrite bind_OK. setoid_rewrite getitem_OK.
  setoid_rewrite for_each_popularity. split.
  - intros (corpids & Hcbo & d & [Hall ->] & [= <-]). exists corpids.
    repeat split; [done|]. intros c Hc. apply Hall.
    by rewrite set_iter_perm, elem_of_elements.
  - intros (corpids & Hcbo & Hall & ->). exists corpids. split; [done|].
    eexists. split; [split; [|done]|done].
    intros c Hc. apply Hall. by rewrite set_iter_perm, elem_of_elements in Hc.
Qed.
End summarizer_facts.

Lemma ranked_length `{HashSeed} `{Countable K, Countable V}
    (index : gmap K (gset V)) (X : gset K) :
  length (sorted_desc (popularity index <$> set_iter X)).*1 = size X.
Proof.
  rewrite length_fmap, sorted_desc_perm, length_fmap, set_iter_perm. done.
Qed.

Lemma ranked_singleton `{HashSeed} `{Countable K, Countable V}
    (index : gmap K (gset V)) (k : K) :
  (sorted_desc (popularity index <$> set_iter ({[k]} : gset K))).*1 = [k].
Proof.
  pose proof (set_iter_perm ({[k]} : gset K)) as Hperm.
  rewrite elements_singleton in Hperm.
  apply Permutation_singleton_r in Hperm. by rewrite Hperm.
Qed.

Section summarizers_of_frame.
Context `{HashSeed}.
Variable df : list Row.

(** The officers summarizer raises for no company of the index,
    whatever the table of names. *)
Lemma get_most_popular_officers_succeeds (table : gmap (option Unique) string) corpid :
  is_Some (officers_by_company df !! corpid) →
  ∃ names,
    get_most_popular_officers (officers_by_company df) (companies_by_officer df)
      table corpid = OK names ∧
    names = (λ name, dict_get table name "") <$>
      top3 None (Some <$> (sorted_desc (popularity (companies_by_officer df)
                                          <$> set_iter (officers_of df corpid))).*1).
Proof.
  intros [officers Hofficers]. eexists. split; [|done].
  apply get_most_popular_officers_OK. exists officers.
  apply officers_by_company_Some in Hofficers as Heq. subst officers.
  repeat split; [done|]. intros o Ho. apply companies_by_officer_is_Some.
  assert (corpid ∈ companies_of df o); [|set_solver].
  by rewrite elem_of_companies_of, <-elem_of_officers_of.
Qed.

(** Nor does the companies summarizer for an officer of the index, once
    the officer projection went through. *)
Lemma get_most_popular_companies_succeeds (E : list (Unique * Unique * nat))
    (table : gmap pyval pyval) (unique : Unique) :
  officer_edges df = OK E →
  is_Some (companies_by_officer df !! unique) →
  ∃ names,
    get_most_popular_companies (officers_by_company df) (companies_by_officer df)
      table unique = OK names ∧
    names = (λ name, dict_get table name (Some "")) <$>
      top3 None (sorted_desc (popularity (officers_by_company df)
                                <$> set_iter (companies_of df unique))).*1.
Proof.
  intros HE [corpids Hcorpids]. eexists. split; [|done].
  apply get_most_popular_companies_OK. exists corpids.
  apply companies_by_officer_Some in Hcorpids as Heq. subst corpids.
  repeat split; [done|].
  intros c Hc. apply officers_by_company_is_Some. split.
  - apply elem_of_companies_of, elem_of_memberships in Hc as (row & Hrow & _ & <-).
    by apply (officer_edges_CorpId df E).
  - assert (unique ∈ officers_of df c); [|set_solver].
    by rewrite elem_of_officers_of, <-elem_of_companies_of.
Qed.
End summarizers_of_frame.

Lemma padded_fields {P V} (none : P) (resolve : P → V) (l : list P) :
  length (resolve <$> top3 none l) = 3 ∧
  (∀ i, (length l ≤ i)%nat → i < 3 →
     (resolve <$> top3 none l) !! i = Some (resolve none)) ∧
  (∀ x, l = [x] → resolve <$> top3 none l = [resolve x; resolve none; resolve none]).
Proof.
  split; [by rewrite length_fmap, top3_length|]. split.
  - intros i Hl Hi. by rewrite list_lookup_fmap, top3_lookup_ge.
  - by intros x ->.
Qed.

(** Each summarizer returns exactly 3 fields for every node of the index;
    the fields past the number of affiliations are the empty string; and a
    node with exactly 1 affiliation gets the name the lookup table holds
    for it, followed by 2 empty strings. *)
Lemma summarizers_padded `{HashSeed} (df : list Row) utn E :
  unique_to_name df = OK utn → officer_edges df = OK E →
  (∀ corpid, is_Some (officers_by_company df !! corpid) →
     ∃ names,
       get_most_popular_officers (officers_by_company df) (companies_by_officer df)
         utn corpid = OK names ∧
       length names = 3 ∧
       (∀ i, (size (officers_of df corpid) ≤ i)%nat → i < 3 → names !! i = Some "") ∧
       (∀ o, officers_of df corpid = {[o]} → names = [dict_get utn (Some o) ""; ""; ""])) ∧
  (∀ unique, is_Some (companies_by_officer df !! unique) →
     ∃ names,
       get_most_popular_companies (officers_by_company df) (companies_by_officer df)
         (corpid_to_company_name df) unique = OK names ∧
       length names = 3 ∧
       (∀ i, (size (companies_of df unique) ≤ i)%nat → i < 3 →
          names !! i = Some (Some "")) ∧
       (∀ c, companies_of df unique = {[c]} →
          names = [dict_get (corpid_to_company_name df) c (Some ""); Some ""; Some ""])).
Proof.
  intros Hutn HE. split.
  - intros corpid Hkey.
    destruct (get_most_popular_officers_succeeds df utn corpid Hkey) as (names & Hnames & ->).
    eexists. split; [done|].
    assert (dict_get utn None "" = "") as Hnone.
    { unfold dict_get. by rewrite (unique_to_name_None df utn Hutn). }
    pose proof (padded_fields None (λ name, dict_get utn name "")
      (Some <$> (sorted_desc (popularity (companies_by_officer df)
                                <$> set_iter (officers_of df corpid))).*1))
      as (Hlen & Hpad & Hone).
    rewrite Hnone in *. rewrite length_fmap, ranked_length in Hpad.
    repeat split; [done|done|].
    intros o Ho. apply Hone. by rewrite Ho, ranked_singleton.
  - intros unique Hkey.
    destruct (get_most_popular_companies_succeeds df E (corpid_to_company_name df)
                unique HE Hkey) as (names & Hnames & ->).
    eexists. split; [done|].
    assert (dict_get (corpid_to_company_name df) None (Some "") = Some "") as Hnone.
    { exact (f_equal (default (Some "")) (corpid_to_company_name_None df E HE)). }
    pose proof (padded_fields None (λ name, dict_get (corpid_to_company_name df) name (Some ""))
      (sorted_desc (popularity (officers_by_company df)
                      <$> set_iter (companies_of df unique))).*1)
      as (Hlen & Hpad & Hone).
    rewrite Hnone in *. rewrite ranked_length in Hpad.
    repeat split; [done|done|].
    intros c Hc. apply Hone. by rewrite Hc, ranked_singleton.
Qed.

(** C10 (total name resolution). A name that is not in the table resolves
    to the empty string, and so does the [None] that pads the ranking,
    which is a key of neither table; whatever the table of names holds, the
    summarizers return for every node of the index. *)
Theorem name_resolution_total `{HashSeed} (df : list Row) utn E :
  unique_to_name df = OK utn → officer_edges df = OK E →
  (∀ name, utn !! name = None → dict_get utn name "" = "") ∧
  (∀ name, corpid_to_company_name df !! name = None →
     dict_get (corpid_to_company_name df) name (Some "") = Some "") ∧
  dict_get utn None "" = "" ∧
  dict_get (corpid_to_company_name df) None (Some "") = Some "" ∧
  (∀ (table : gmap (option Unique) string) corpid,
     is_Some (officers_by_company df !! corpid) →
     succeeds (get_most_popular_officers (officers_by_company df)
                 (companies_by_officer df) table corpid)) ∧
  (∀ (table : gmap pyval pyval) unique,
     is_Some (companies_by_officer df !! unique) →
     succeeds (get_most_popular_companies (officers_by_company df)
                 (companies_by_officer df) table unique)).
Proof.
  intros Hutn HE. unfold dict_get. repeat split.
  - by intros name ->.
  - by intros name ->.
  - by rewrite (unique_to_name_None df utn Hutn).
  - exact (f_equal (default (Some "")) (corpid_to_company_name_None df E HE)).
  - intros table corpid Hkey.
    destruct (get_most_popular_officers_succeeds df table corpid Hkey) as (names & ? & _).
    by exists names.
  - intros table unique Hkey.
    destruct (get_most_popular_companies_succeeds df E table unique HE Hkey)
      as (names & ? & _).
    by exists names.
Qed.

(** C8 as stated fails: the company C8 is kept by the component filter
    and has exactly one officer, whose display name is blank, and its
    three ranked fields are all empty. *)
Lemma single_affiliation_all_empty :
  size (officers_of (rows_of with_blank) (Some "C8")) = 1 ∧
  ∃ out, create_networks (H := seed_up) with_blank = OK out ∧
    {| cdf_CorpId := Some "C8"; cdf_CompanyName := Some "Eight"; cdf_AltName := None;
       cdf_Officers := [""; ""; ""] |} ∈ corporations_attributes out.
Proof.
  split; [vm_compute; reflexivity|].
  eexists. split; [vm_compute; reflexivity|]. simpl. right. left.
Qed.

Lemma name_resolution_total_witness :
  ∃ utn,
    unique_to_name (rows_of three_companies) = OK utn ∧
    dict_get utn None "" = "" ∧
    succeeds (get_most_popular_companies (H := seed_up)
                (officers_by_company (rows_of three_companies))
                (companies_by_officer (rows_of three_companies)) ∅ O4).
Proof.
  destruct (unique_to_name_succeeds (rows_of three_companies)) as [utn Hutn].
  { repeat constructor; by eexists. }
  assert (officer_edges (H := seed_up) (rows_of three_companies) =
            OK [(O2, O3, 1); (O1, O2, 1); (O1, O4, 1); (O3, O4, 1); (O1, O3, 1)]) as HE
    by (vm_compute; reflexivity).
  destruct (name_resolution_total (H := seed_up) (rows_of three_companies) utn _ Hutn HE)
    as (_ & _ & Hpad & _ & _ & Hcompanies).
  exists utn. split; [exact Hutn|]. split; [exact Hpad|].
  apply Hcompanies. apply companies_by_officer_is_Some.
  apply (bool_decide_unpack _). vm_compute. exact I.
Defined.

(** ** Ranking and the hash seed *)

Lemma insert_desc_sorted {A} (x : A * nat) (l : list (A * nat)) :
  StronglySorted desc l → x.2 ∉ l.*2 → StronglySorted desc (insert_desc x l).
Proof.
  induction 1 as [|y l Hl IH Hy]; intros Hx; simpl.
  - repeat constructor.
  - rewrite fmap_cons, not_elem_of_cons in Hx. destruct Hx as [Hxy Hx].
    case_decide as Hlt.
    + constructor; [by apply IH|].
      rewrite insert_desc_perm. by constructor.
    + constructor; [by constructor|]. constructor; [unfold desc; lia|].
      eapply Forall_impl; [exact Hy|]. unfold desc. intros z. simpl. lia.
Qed.

Lemma sorted_desc_sorted {A} (l : list (A * nat)) :
  NoDup l.*2 → StronglySorted desc (sorted_desc l).
Proof.
  induction l as [|x l IH]; simpl; [constructor|].
  intros [Hx Hl]%NoDup_cons. apply insert_desc_sorted; [by apply IH|].
  by rewrite sorted_desc_perm.
Qed.

(** Without ties the sort forgets the order its items came in. *)
Lemma sorted_desc_unique {A} (l1 l2 : list (A * nat)) :
  l1 ≡ₚ l2 → NoDup l1.*2 → sorted_desc l1 = sorted_desc l2.
Proof.
  intros Hperm Hnodup. apply (StronglySorted_unique_strong desc).
  - unfold desc. intros; lia.
  - by apply sorted_desc_sorted.
  - apply sorted_desc_sorted. by rewrite <-Hperm.
  - by rewrite !sorted_desc_perm.
Qed.

Lemma for_each_popularity_perm `{Countable K, Countable V}
    (index : gmap K (gset V)) (l1 l2 : list K) :
  l1 ≡ₚ l2 → NoDup (popularity index <$> l1).*2 →
  sorted_desc <$> for_each (λ k, vs ← getitem index k; OK (k, size vs)) l1 =
  sorted_desc <$> for_each (λ k, vs ← getitem index k; OK (k, size vs)) l2.
Proof.
  intros Hperm Hnodup.
  destruct (for_each _ l1) as [d1|e1] eqn:H1, (for_each _ l2) as [d2|e2] eqn:H2; simpl.
  - apply for_each_popularity in H1 as [_ ->]. apply for_each_popularity in H2 as [_ ->].
    f_equal. apply sorted_desc_unique; [by rewrite Hperm|done].
  - apply for_each_popularity in H1 as [Hall _].
    assert (for_each (λ k, vs ← getitem index k; OK (k, size vs)) l2
            = OK (popularity index <$> l2)) as Hok; [|congruence].
    apply for_each_popularity. split; [|done]. intros k Hk. apply Hall. by rewrite Hperm.
  - apply for_each_popularity in H2 as [Hall _].
    assert (for_each (λ k, vs ← getitem index k; OK (k, size vs)) l1
            = OK (popularity index <$> l1)) as Hok; [|congruence].
    apply for_each_popularity. split; [|done]. intros k Hk. apply Hall. by rewrite <-Hperm.
  - apply for_each_popularity_Raise in H1 as ->.
    by apply for_each_popularity_Raise in H2 as ->.
Qed.

Lemma popularity_NoDup `{Countable K, Countable V}
    (index : gmap K (gset V)) (X : gset K) (l : list K) :
  l ≡ₚ elements X →
  (∀ k1 k2, k1 ∈ X → k2 ∈ X → k1 ≠ k2 →
     size (default ∅ (index !! k1)) ≠ size (default ∅ (index !! k2))) →
  NoDup (popularity index <$> l).*2.
Proof.
  intros Hperm Hties. rewrite <-list_fmap_compose. apply NoDup_fmap_2_strong.
  - intros k1 k2 Hk1 Hk2 Heq. rewrite Hperm, elem_of_elements in Hk1, Hk2.
    destruct (decide (k1 = k2)) as [|Hne]; [done|]. by destruct (Hties k1 k2).
  - rewrite Hperm. apply NoDup_elements.
Qed.

(** C6, as the code has it. The ranked affiliations of a node are the
    same under any two iteration orders of the sets when its affiliations
    have pairwise different popularity; nothing but the iteration order
    separates affiliations of equal popularity. *)
Theorem ranking_without_ties (h1 h2 : HashSeed)
    (obc : gmap pyval (gset Unique)) (cbo : gmap Unique (gset pyval))
    (utn : gmap (option Unique) string) (ctn : gmap pyval pyval) :
  (∀ corpid officers, obc !! corpid = Some officers →
     (∀ o1 o2, o1 ∈ officers → o2 ∈ officers → o1 ≠ o2 →
        size (default ∅ (cbo !! o1)) ≠ size (default ∅ (cbo !! o2))) →
     get_most_popular_officers (H := h1) obc cbo utn corpid =
     get_most_popular_officers (H := h2) obc cbo utn corpid) ∧
  (∀ unique corpids, cbo !! unique = Some corpids →
     (∀ c1 c2, c1 ∈ corpids → c2 ∈ corpids → c1 ≠ c2 →
        size (default ∅ (obc !! c1)) ≠ size (default ∅ (obc !! c2))) →
     get_most_popular_companies (H := h1) obc cbo ctn unique =
     get_most_popular_companies (H := h2) obc cbo ctn unique).
Proof.
  split.
  - intros corpid officers Hofficers Hties. unfold get_most_popular_officers.
    rewrite (proj2 (getitem_OK obc corpid officers) Hofficers). simpl.
    assert (Heq := for_each_popularity_perm cbo
      (set_iter (HashSeed := h1) officers) (set_iter (HashSeed := h2) officers)).
    specialize (Heq ltac:(by rewrite !set_iter_perm)
      (popularity_NoDup cbo officers _ (set_iter_perm _) Hties)).
    destruct (for_each _ (set_iter (HashSeed := h1) officers)) as [d1|e1],
      (for_each _ (set_iter (HashSeed := h2) officers)) as [d2|e2];
      simpl in *; try done; injection Heq as Heq; by rewrite Heq.
  - intros unique corpids Hcorpids Hties. unfold get_most_popular_companies.
    rewrite (proj2 (getitem_OK cbo unique corpids) Hcorpids). simpl.
    assert (Heq := for_each_popularity_perm obc
      (set_iter (HashSeed := h1) corpids) (set_iter (HashSeed := h2) corpids)).
    specialize (Heq ltac:(by rewrite !set_iter_perm)
      (popularity_NoDup obc corpids _ (set_iter_perm _) Hties)).
    destruct (for_each _ (set_iter (HashSeed := h1) corpids)) as [d1|e1],
      (for_each _ (set_iter (HashSeed := h2) corpids)) as [d2|e2];
      simpl in *; try done; injection Heq as Heq;
      [do 4 f_equal; exact Heq|by rewrite Heq].
Qed.

Lemma ranking_without_ties_witness :
  get_most_popular_officers (H := seed_up) (officers_by_company (rows_of with_blank))
    (companies_by_officer (rows_of with_blank)) ∅ (Some "C9") =
  get_most_popular_officers (H := seed_down) (officers_by_company (rows_of with_blank))
    (companies_by_officer (rows_of with_blank)) ∅ (Some "C9").
Proof.
  destruct (ranking_without_ties seed_up seed_down
              (officers_by_company (rows_of with_blank))
              (companies_by_officer (rows_of with_blank)) ∅ ∅) as [Hofficers _].
  apply (Hofficers (Some "C9") (officers_of (rows_of with_blank) (Some "C9"))).
  - rewrite officers_by_company_lookup. apply decide_False.
    apply (bool_decide_unpack _). vm_compute. exact I.
  - intros o1 o2 Ho1 Ho2. revert o2 Ho2. revert o1 Ho1.
    change (set_Forall (λ o1, set_Forall (λ o2, o1 ≠ o2 →
         size (default ∅ (companies_by_officer (rows_of with_blank) !! o1)) ≠
         size (default ∅ (companies_by_officer (rows_of with_blank) !! o2)))
         (officers_of (rows_of with_blank) (Some "C9")))
         (officers_of (rows_of with_blank) (Some "C9"))).
    apply (bool_decide_unpack _). vm_compute. exact I.
Defined.

(** C6 as stated fails: O1 and O3 both sit in two companies, and the two
    seeds rank them in opposite orders among the officers of C3; the
    tables the two runs write differ. *)
Lemma hash_seed_changes_output :
  get_most_popular_officers (H := seed_up) (officers_by_company (rows_of three_companies))
    (companies_by_officer (rows_of three_companies))
    {[ Some O1 := "O1"; Some O3 := "O3"; Some O4 := "O4" ]} (Some "C3")
    = OK ["O1"; "O3"; "O4"] ∧
  get_most_popular_officers (H := seed_down) (officers_by_company (rows_of three_companies))
    (companies_by_officer (rows_of three_companies))
    {[ Some O1 := "O1"; Some O3 := "O3"; Some O4 := "O4" ]} (Some "C3")
    = OK ["O3"; "O1"; "O4"] ∧
  create_networks (H := seed_up) three_companies ≠
    create_networks (H := seed_down) three_companies.
Proof.
  split; [vm_compute; reflexivity|]. split; [vm_compute; reflexivity|].
  intros Heq.
  apply (f_equal (λ r, match r with
                       | OK out => cdf_Officers <$> corporations_attributes out
                       | Raise _ => []
                       end)) in Heq.
  vm_compute in Heq. discriminate Heq.
Qed.

(** ** Component filter *)

Section networkx_facts.
Context `{Countable K}.
Implicit Types (G : Graph K) (E : list (K * K * nat)) (x y u v : K) (w : nat).

Lemma adjacent_sym E x y : adjacent E x y → adjacent E y x.
Proof. intros [w [?|?]]; exists w; [by right|by left]. Qed.

Lemma connected_sym E x y : connected E x y → connected E y x.
Proof.
  induction 1 as [|x y z Hxy _ IH]; [constructor|].
  eapply rtc_r; [exact IH|]. by apply adjacent_sym.
Qed.

Lemma connected_endpoint E v x :
  (∃ y, adjacent E v y) → connected E v x → ∃ y, adjacent E x y.
Proof.
  intros Hv Hvx. apply connected_sym in Hvx.
  inversion Hvx as [|? z ? Hxz _]; subst; [done|]. eauto.
Qed.

Lemma edge_between_snoc E e x y w :
  edge_between (E ++ [e]) x y w ↔ edge_between E x y w ∨ e = (x, y, w) ∨ e = (y, x, w).
Proof.
  unfold edge_between. rewrite !elem_of_app, !list_elem_of_singleton. naive_solver.
Qed.

Lemma nodes_add_node G u x :
  x ∈ nodes (add_node G u) ↔ x ∈ nodes G ∨ x = u.
Proof.
  unfold add_node. case_decide; simpl.
  - naive_solver.
  - rewrite elem_of_app, list_elem_of_singleton. done.
Qed.

Lemma NoDup_add_node G u : NoDup (nodes G) → NoDup (nodes (add_node G u)).
Proof.
  unfold add_node. case_decide; simpl; [done|]. intros Hnodup.
  apply NoDup_app. split; [done|]. split; [|apply NoDup_singleton].
  by intros x Hx ->%list_elem_of_singleton.
Qed.

Lemma dom_add_node G u :
  (∀ x, x ∉ nodes G → adj G !! x = None) →
  ∀ x, x ∉ nodes (add_node G u) → adj (add_node G u) !! x = None.
Proof.
  intros Hdom x. rewrite nodes_add_node. intros Hx.
  unfold add_node. case_decide; simpl; [apply Hdom; tauto|].
  rewrite lookup_insert_ne by naive_solver. apply Hdom. tauto.
Qed.

Lemma neighbors_add_node G u x :
  (∀ x, x ∉ nodes G → adj G !! x = None) →
  neighbors (add_node G u) x = neighbors G x.
Proof.
  intros Hdom. unfold add_node, neighbors. case_decide as Hu; simpl; [done|].
  destruct (decide (u = x)) as [->|Hne].
  - by rewrite lookup_insert_eq, (Hdom x Hu).
  - by rewrite lookup_insert_ne.
Qed.

Lemma nodes_add_edge G u v w x :
  x ∈ nodes (add_edge G (u, v, w)) ↔ x ∈ nodes G ∨ x = u ∨ x = v.
Proof. simpl. rewrite !nodes_add_node. tauto. Qed.

Lemma neighbors_add_edge G u v w x y :
  (∀ x, x ∉ nodes G → adj G !! x = None) →
  neighbors (add_edge G (u, v, w)) x !! y =
    if decide ((x = u ∧ y = v) ∨ (x = v ∧ y = u)) then Some w
    else neighbors G x !! y.
Proof.
  intros Hdom.
  assert (∀ z, neighbors (add_node (add_node G u) v) z = neighbors G z) as Hnb.
  { intros z. rewrite neighbors_add_node by by apply dom_add_node.
    by apply neighbors_add_node. }
  unfold add_edge. unfold neighbors at 1. simpl.
  destruct (decide (v = x)) as [->|Hvx].
  - rewrite lookup_insert_eq. simpl.
    destruct (decide (y = u)) as [->|Hyu].
    + rewrite lookup_insert_eq. by rewrite decide_True by tauto.
    + rewrite lookup_insert_ne by done.
      destruct (decide (u = x)) as [->|Hux].
      * rewrite lookup_insert_eq. simpl. rewrite Hnb.
        destruct (decide (y = x)) as [->|Hyx]; [done|].
        rewrite lookup_insert_ne by done. by rewrite decide_False by naive_solver.
      * rewrite lookup_insert_ne by done. fold (neighbors (add_node (add_node G u) x) x).
        rewrite Hnb. by rewrite decide_False by naive_solver.
  - rewrite lookup_insert_ne by done.
    destruct (decide (u = x)) as [->|Hux].
    + rewrite lookup_insert_eq. simpl. rewrite Hnb.
      destruct (decide (y = v)) as [->|Hyv].
      * rewrite lookup_insert_eq. by rewrite decide_True by tauto.
      * rewrite lookup_insert_ne by done. by rewrite decide_False by naive_solver.
    + rewrite lookup_insert_ne by done. fold (neighbors (add_node (add_node G u) v) x).
      rewrite Hnb. by rewrite decide_False by naive_solver.
Qed.

Lemma represents_empty : represents (empty_graph (K := K)) [].
Proof.
  split; simpl.
  - constructor.
  - intros x _. apply lookup_empty.
  - intros x. split; [by intros ?%elem_of_nil|].
    by intros (y & w & [?%elem_of_nil|?%elem_of_nil]).
  - intros x y. unfold neighbors. simpl. rewrite lookup_empty. simpl.
    rewrite lookup_empty. split; [by intros [? ?]|].
    by intros (w & [?%elem_of_nil|?%elem_of_nil]).
  - intros x y w. unfold neighbors. simpl. rewrite lookup_empty. simpl.
    by rewrite lookup_empty.
  - intros x y. unfold neighbors. simpl. by rewrite !lookup_empty.
Qed.

Lemma represents_add_edge G E e :
  represents G E → represents (add_edge G e) (E ++ [e]).
Proof.
  destruct e as [[u v] w]. intros [Hnodup Hdom Hnodes Hadj Hweight Hsym]. split.
  - simpl. by do 2 apply NoDup_add_node.
  - intros x Hx. rewrite nodes_add_edge in Hx.
    assert ((x ∉ nodes G) ∧ (x ≠ u) ∧ (x ≠ v)) as (Hx1 & Hx2 & Hx3) by tauto.
    unfold add_edge. simpl. rewrite !lookup_insert_ne by done.
    apply dom_add_node; [by apply dom_add_node|]. rewrite !nodes_add_node. tauto.
  - intros x. rewrite nodes_add_edge, Hnodes. unfold adjacent.
    setoid_rewrite edge_between_snoc. split.
    + intros [(y & w' & ?) | [-> | ->]]; [by eauto|exists v, w|exists u, w]; eauto.
    + intros (y & w' & [? | [[= <- <- <-] | [= <- <- <-]]]); eauto.
  - intros x y. rewrite neighbors_add_edge by done. unfold adjacent.
    setoid_rewrite edge_between_snoc. case_decide as Hc.
    + split; [|by eauto]. intros _. exists w.
      destruct Hc as [[-> ->]|[-> ->]]; eauto.
    + rewrite Hadj. unfold adjacent. split; [intros [w' ?]; eauto|].
      intros (w' & [? | [[= <- <- <-] | [= <- <- <-]]]); [by eauto|tauto..].
  - intros x y w'. rewrite neighbors_add_edge by done.
    rewrite edge_between_snoc. case_decide as Hc.
    + intros [= <-]. destruct Hc as [[-> ->]|[-> ->]]; eauto.
    + intros ?%Hweight. by left.
  - intros x y. rewrite !neighbors_add_edge by done.
    repeat case_decide; try done; tauto.
Qed.

Lemma add_edges_from_represents E : represents (add_edges_from empty_graph E) E.
Proof.
  induction E as [|e E IH] using rev_ind; [apply represents_empty|].
  unfold add_edges_from. rewrite foldl_app. simpl. by apply represents_add_edge.
Qed.
End networkx_facts.

Lemma size_list_to_set_le `{Countable A} (l : list A) :
  (size (list_to_set l : gset A) ≤ length l)%nat.
Proof.
  induction l as [|x l IH]; [done|].
  rewrite list_to_set_cons, size_union_alt, size_singleton. simpl.
  pose proof (subseteq_size (list_to_set l ∖ {[x]}) (list_to_set l : gset A)) as Hle.
  assert (size (list_to_set l ∖ {[x]} : gset A) ≤ size (list_to_set l : gset A))%nat
    by (apply Hle; apply subseteq_difference_l; done).
  lia.
Qed.

Section bfs_facts.
Context `{Countable K}.
Variable G : Graph K.

Hypothesis linked_nodes : ∀ x y, linked G x y → y ∈ nodes G.

Lemma elem_of_nextlevel (fresh : gset K) y :
  y ∈ ⋃ ((λ v, dom (neighbors G v)) <$> elements fresh) ↔
    ∃ x, x ∈ fresh ∧ linked G x y.
Proof.
  rewrite elem_of_union_list. setoid_rewrite list_elem_of_fmap. split.
  - intros (X & (x & -> & Hx%elem_of_elements) & Hy%elem_of_dom). eauto.
  - intros (x & Hx & Hy). exists (dom (neighbors G x)). split.
    + exists x. by rewrite elem_of_elements.
    + by apply elem_of_dom.
Qed.

Lemma plain_bfs_done fuel (seen : gset K) : plain_bfs G fuel seen ∅ = seen.
Proof. destruct fuel; simpl; [done|]. by rewrite decide_True. Qed.

(** A set that holds [v] and the neighbours of its members holds all
    that [v] reaches. *)
Lemma closed_reach (seen : gset K) v y :
  v ∈ seen → (∀ x z, x ∈ seen → linked G x z → z ∈ seen) →
  rtc (linked G) v y → y ∈ seen.
Proof. intros Hv Hclosed. induction 1; eauto. Qed.

Lemma plain_bfs_spec v fuel (seen nextlevel : gset K) :
  v ∈ seen ∪ nextlevel →
  (∀ x, x ∈ seen ∪ nextlevel → rtc (linked G) v x) →
  (∀ x y, x ∈ seen → linked G x y → y ∈ seen ∪ nextlevel) →
  nextlevel ⊆ list_to_set (nodes G) →
  size (list_to_set (nodes G) ∖ seen : gset K) < fuel →
  ∀ y, y ∈ plain_bfs G fuel seen nextlevel ↔ rtc (linked G) v y.
Proof.
  revert seen nextlevel.
  induction fuel as [|fuel IH]; intros seen nextlevel Hv Hreach Hclosed Hnodes Hfuel;
    [lia|].
  simpl.
  assert (∀ seen' : gset K, v ∈ seen' →
            (∀ x, x ∈ seen' → rtc (linked G) v x) →
            (∀ x y, x ∈ seen' → linked G x y → y ∈ seen') →
            ∀ y, y ∈ seen' ↔ rtc (linked G) v y) as Hdone.
  { intros seen' Hv' Hreach' Hclosed' y. split; [apply Hreach'|].
    by apply closed_reach. }
  case_decide as Hnext.
  { subst nextlevel. rewrite (right_id_L ∅ (∪)) in *. by apply Hdone. }
  set (fresh := nextlevel ∖ seen).
  assert (seen ∪ fresh = seen ∪ nextlevel) as Hseen.
  { clear. apply set_eq. intros x. subst fresh.
    rewrite !elem_of_union, elem_of_difference. destruct (decide (x ∈ seen)); tauto. }
  rewrite Hseen.
  destruct (decide (fresh = ∅)) as [Hfresh|Hfresh].
  - rewrite Hfresh, elements_empty. simpl. rewrite plain_bfs_done.
    rewrite <-Hseen, Hfresh, (right_id_L ∅ (∪)).
    rewrite <-Hseen, Hfresh, (right_id_L ∅ (∪)) in Hv, Hreach, Hclosed.
    by apply Hdone.
  - apply IH.
    + apply elem_of_union. by left.
    + intros x [Hx|Hx]%elem_of_union; [by apply Hreach|].
      apply elem_of_nextlevel in Hx as (x' & Hx' & Hlink).
      eapply rtc_r; [|exact Hlink]. apply Hreach.
      apply elem_of_difference in Hx' as [Hx' _]. apply elem_of_union. by right.
    + intros x y Hx Hxy. destruct (decide (x ∈ seen)) as [Hin|Hout].
      * apply elem_of_union. left. by eapply Hclosed.
      * apply elem_of_union. right. apply elem_of_nextlevel. exists x. split; [|done].
        apply elem_of_difference. split; [|done].
        apply elem_of_union in Hx as [?|?]; done.
    + intros y (x & _ & Hxy)%elem_of_nextlevel.
      apply elem_of_list_to_set. by eapply linked_nodes.
    + apply set_choose_L in Hfresh as [x [Hx1 Hx2]%elem_of_difference].
      assert (list_to_set (nodes G) ∖ (seen ∪ nextlevel) ⊂ list_to_set (nodes G) ∖ seen)
        as Hlt%subset_size; [|lia].
      clear -Hx1 Hx2 Hnodes. split.
      * intros z. rewrite !elem_of_difference, elem_of_union. tauto.
      * intros Hsub. specialize (Hsub x).
        rewrite !elem_of_difference, elem_of_union in Hsub.
        apply Hnodes in Hx1 as Hx3. tauto.
Qed.

(** The search from a node finds what the node reaches. *)
Lemma bfs_from_spec v y :
  v ∈ nodes G → y ∈ bfs_from G v ↔ rtc (linked G) v y.
Proof.
  intros Hv. unfold bfs_from. apply plain_bfs_spec.
  - apply elem_of_union. right. by apply elem_of_singleton.
  - intros x [Hx%elem_of_empty|Hx%elem_of_singleton]%elem_of_union; [done|].
    subst x. constructor.
  - by intros x z Hx%elem_of_empty.
  - intros x Hx%elem_of_singleton. subst x. by apply elem_of_list_to_set.
  - rewrite difference_empty_L.
    pose proof (size_list_to_set_le (nodes G)). simpl. lia.
Qed.
End bfs_facts.

Section component_facts.
Context `{Countable K}.
Implicit Types (G : Graph K) (E : list (K * K * nat)) (c : gset K).

Lemma linked_adjacent G E x y :
  represents G E → linked G x y ↔ adjacent E x y.
Proof. intros HG. apply (rep_adjacent G E HG). Qed.

Lemma reach_connected G E x y :
  represents G E → rtc (linked G) x y ↔ connected E x y.
Proof.
  intros HG. unfold connected.
  split; induction 1 as [|a b d Hab _ IH]; try constructor;
    (eapply rtc_l; [|exact IH]); by apply (linked_adjacent G E).
Qed.

(** On a graph built from a list of edges, the search from a node finds
    the nodes connected to it. *)
Lemma bfs_from_connected G E v y :
  represents G E → v ∈ nodes G → y ∈ bfs_from G v ↔ connected E v y.
Proof.
  intros HG Hv. rewrite <-(reach_connected G E) by done.
  apply bfs_from_spec; [|done].
  intros a b Hab%(linked_adjacent G E _ _ HG)%adjacent_sym.
  apply (rep_nodes G E HG). eauto.
Qed.

Lemma components_loop_spec G E (l : list K) :
  represents G E → (∀ v, v ∈ l → v ∈ nodes G) →
  (∀ c, c ∈ (components_loop G l).2 → ∃ v, v ∈ l ∧ c = bfs_from G v) ∧
  (∀ x, x ∈ (components_loop G l).1 ↔ ∃ c, c ∈ (components_loop G l).2 ∧ x ∈ c) ∧
  (∀ v, v ∈ l → v ∈ (components_loop G l).1).
Proof.
  intros HG. induction l as [|v l IH] using rev_ind; intros Hl.
  { repeat split; try by intros ? ?%elem_of_nil.
    - by intros ?%elem_of_empty.
    - by intros (c & ?%elem_of_nil & _). }
  destruct IH as (IH1 & IH2 & IH3); [intros; apply Hl, elem_of_app; by left|].
  assert (v ∈ bfs_from G v) as Hvv.
  { apply (bfs_from_connected G E); [done| |constructor].
    apply Hl, elem_of_app. right. left. }
  unfold components_loop in *. rewrite foldl_app. simpl.
  destruct (foldl _ _ l) as [seen comps]. simpl in *. case_decide as Hv; simpl.
  - repeat split.
    + intros c (u & Hu & ->)%IH1. exists u. split; [|done]. apply elem_of_app. by left.
    + by apply IH2.
    + by apply IH2.
    + intros u [Hu|Hu%list_elem_of_singleton]%elem_of_app; [by apply IH3|by subst].
  - repeat split.
    + intros c [Hc|Hc%list_elem_of_singleton]%elem_of_app.
      * apply IH1 in Hc as (u & Hu & ->). exists u. split; [|done].
        apply elem_of_app. by left.
      * subst c. exists v. split; [|done]. apply elem_of_app. right. left.
    + intros [Hx|Hx]%elem_of_union.
      * apply IH2 in Hx as (c & Hc & Hxc). exists c. split; [|done].
        apply elem_of_app. by left.
      * exists (bfs_from G v). split; [|done]. apply elem_of_app. right. left.
    + intros (c & [Hc|Hc%list_elem_of_singleton]%elem_of_app & Hxc).
      * apply elem_of_union. left. apply IH2. eauto.
      * subst c. apply elem_of_union. by right.
    + intros u [Hu|Hu%list_elem_of_singleton]%elem_of_app.
      * apply elem_of_union. left. by apply IH3.
      * subst u. apply elem_of_union. by right.
Qed.

(** Every component listed is the set of the nodes connected to one of
    the nodes, and every node is in a component listed. *)
Lemma connected_components_spec G E :
  represents G E →
  (∀ c, c ∈ connected_components G →
     ∃ v, v ∈ nodes G ∧ ∀ y, y ∈ c ↔ connected E v y) ∧
  (∀ v, v ∈ nodes G → ∃ c, c ∈ connected_components G ∧ v ∈ c).
Proof.
  intros HG.
  destruct (components_loop_spec G E (nodes G) HG) as (H1 & H2 & H3); [done|].
  split.
  - intros c (v & Hv & ->)%H1. exists v. split; [done|].
    intros y. by apply bfs_from_connected.
  - intros v Hv%H3. by apply H2.
Qed.

Lemma max_by_len_spec (cs : list (gset K)) :
  match max_by_len cs with
  | OK c => c ∈ cs ∧ ∀ c', c' ∈ cs → (size c' ≤ size c)%nat
  | Raise e => cs = [] ∧ e = ValueError
  end.
Proof.
  destruct cs as [|c0 cs]; simpl; [done|].
  revert c0. induction cs as [|c1 cs IH]; intros c0; simpl.
  - split; [left|]. by intros c' ->%list_elem_of_singleton.
  - case_decide as Hlt.
    + destruct (IH c1) as [Hin Hmax]. split; [by right|].
      intros c' [->|Hc']%elem_of_cons; [|by apply Hmax].
      specialize (Hmax c1 ltac:(left)). lia.
    + destruct (IH c0) as [Hin Hmax]. split.
      * apply elem_of_cons in Hin as [->|Hin]; [left|right; by right].
      * intros c' [->|[->|Hc']%elem_of_cons]%elem_of_cons.
        -- apply Hmax. left.
        -- specialize (Hmax c0 ltac:(left)). lia.
        -- apply Hmax. by right.
Qed.
End component_facts.

Section subgraph_facts.
Context `{Countable K}.
Implicit Types (G : Graph K) (E : list (K * K * nat)) (c : gset K).

Lemma nodes_subgraph G c x : x ∈ nodes (subgraph G c) ↔ x ∈ c ∧ x ∈ nodes G.
Proof. unfold subgraph. simpl. by rewrite list_elem_of_filter. Qed.

Lemma neighbors_subgraph G c x y w :
  neighbors (subgraph G c) x !! y = Some w ↔
    x ∈ c ∧ y ∈ c ∧ neighbors G x !! y = Some w.
Proof.
  unfold neighbors, subgraph. simpl. rewrite lookup_fmap.
  destruct (filter _ (adj G) !! x) as [nbrs|] eqn:Hx; simpl.
  - apply map_lookup_filter_Some in Hx as [Hx Hc]. simpl in Hc.
    rewrite Hx. simpl. rewrite map_lookup_filter_Some. simpl. tauto.
  - rewrite lookup_empty. split; [done|]. intros (Hc & _ & Hw).
    destruct (adj G !! x) as [nbrs|] eqn:Hadj; simpl in Hw;
      [|by rewrite lookup_empty in Hw].
    apply map_lookup_filter_None in Hx as [Hx|Hx]; [congruence|]. by destruct (Hx nbrs).
Qed.

Lemma edges_loop_spec G (l : list K) :
  (edges_loop G l).1 = list_to_set l ∧
  ∀ x y w, (x, y, w) ∈ (edges_loop G l).2 ↔
    ∃ l1 l2, l = l1 ++ x :: l2 ∧ neighbors G x !! y = Some w ∧ y ∉ l1.
Proof.
  induction l as [|n l [IH1 IH2]] using rev_ind.
  { split; [done|]. intros x y w. split; [by intros ?%elem_of_nil|].
    intros (l1 & l2 & Hl & _). by destruct l1. }
  unfold edges_loop in *. rewrite foldl_app. simpl.
  destruct (foldl _ _ l) as [seen out]. simpl in *. subst seen. split.
  { rewrite list_to_set_app_L. simpl. by rewrite (right_id_L ∅ (∪)). }
  intros x y w. rewrite elem_of_app, IH2, list_elem_of_fmap. split.
  - intros [(l1 & l2 & -> & Hw & Hy)|([z w'] & [= -> -> ->] & Hin)].
    + exists l1, (l2 ++ [n]). by rewrite <-app_assoc.
    + apply list_elem_of_filter in Hin as [Hy Hw%elem_of_map_to_list]. simpl in *.
      exists l, []. rewrite elem_of_list_to_set in Hy. done.
  - intros (l1 & l2 & Hl & Hw & Hy).
    destruct l2 as [|z l2 _] using rev_ind.
    + apply app_inj_tail in Hl as [-> ->]. right. exists (y, w). split; [done|].
      apply list_elem_of_filter. simpl. rewrite elem_of_list_to_set.
      split; [done|]. by apply elem_of_map_to_list.
    + change (l1 ++ x :: l2 ++ [z]) with (l1 ++ (x :: l2) ++ [z]) in Hl.
      rewrite app_assoc in Hl. apply app_inj_tail in Hl as [-> ->].
      left. eauto.
Qed.

(** A graph reports each of its edges once, from one endpoint or the
    other. *)
Lemma edge_between_edges G a b w :
  (∀ x y, is_Some (neighbors G x !! y) → x ∈ nodes G ∧ y ∈ nodes G) →
  (∀ x y, neighbors G x !! y = neighbors G y !! x) →
  edge_between (edges G) a b w ↔ neighbors G a !! b = Some w.
Proof.
  intros Hnodes Hsym. unfold edge_between.
  destruct (edges_loop_spec G (nodes G)) as [_ Hedges].
  change (edges G) with (edges_loop G (nodes G)).2. rewrite !Hedges. split.
  - intros [(_ & _ & _ & Hw & _)|(_ & _ & _ & Hw & _)]; [done|by rewrite Hsym].
  - intros Hw. destruct (Hnodes a b) as [Ha Hb]; [by eexists|].
    apply list_elem_of_split_l in Ha as (l1 & l2 & Hl & Ha).
    destruct (decide (b ∈ l1)) as [Hin|Hout]; [|left; by eauto].
    apply list_elem_of_split_l in Hin as (l1' & l1'' & -> & Hb').
    right. exists l1', (l1'' ++ a :: l2). rewrite Hl, <-app_assoc. simpl.
    repeat split; [by rewrite Hsym|].
    intros Hin. apply Ha, elem_of_app. by left.
Qed.
End subgraph_facts.

(** What the component filter returns on a list of edges that is not
    empty: the nodes of a connected component [c] that no component
    outgrows, each once, and exactly the edges of the list between nodes
    of [c]. *)
Lemma largest_component_spec `{Countable K} (E : list (K * K * nat)) :
  E ≠ [] → simple E →
  ∃ G' (c : gset K),
    largest_component E = OK G' ∧
    (∃ v, (∃ y, adjacent E v y) ∧ ∀ y, y ∈ c ↔ connected E v y) ∧
    (∀ v (c' : gset K), (∃ y, adjacent E v y) →
       (∀ y, y ∈ c' ↔ connected E v y) → (size c' ≤ size c)%nat) ∧
    NoDup (nodes G') ∧
    (∀ x, x ∈ nodes G' ↔ x ∈ c) ∧
    (∀ x, x ∈ c → ∃ y, adjacent E x y) ∧
    (∀ a b w, edge_between (edges G') a b w ↔ a ∈ c ∧ b ∈ c ∧ edge_between E a b w).
Proof.
  intros Hne Hsimple. unfold largest_component.
  set (G := add_edges_from empty_graph E).
  pose proof (add_edges_from_represents E) as HG. fold G in HG.
  destruct (connected_components_spec G E HG) as [Hsound Hcomplete].
  pose proof (max_by_len_spec (connected_components G)) as Hmax.
  destruct (max_by_len (connected_components G)) as [c|e]; simpl.
  - destruct Hmax as [Hc Hmax]. exists (subgraph G c), c. split; [done|].
    destruct (Hsound c Hc) as (v & Hv & Hcv).
    assert (∀ x, x ∈ c → ∃ y, adjacent E x y) as Hends.
    { intros x Hx%Hcv. apply (connected_endpoint E v x); [|done].
      by apply (rep_nodes G E HG). }
    assert (∀ x, x ∈ c → x ∈ nodes G) as Hsub.
    { intros x Hx. by apply (rep_nodes G E HG), Hends. }
    split; [|split; [|split; [|split; [|split; [done|]]]]].
    + exists v. split; [by apply (rep_nodes G E HG)|done].
    + intros u c' Hu%(rep_nodes G E HG) Hc'.
      destruct (Hcomplete u Hu) as (c'' & Hc'' & Hu'').
      destruct (Hsound c'' Hc'') as (v'' & _ & Hcv'').
      assert (c' = c'') as ->; [|by apply Hmax].
      apply set_eq. intros y. rewrite Hc', Hcv''. apply Hcv'' in Hu''. split.
      * intros Huy. by etrans.
      * intros Hvy. etrans; [|exact Hvy]. by apply connected_sym.
    + unfold subgraph. simpl. apply NoDup_filter, (rep_NoDup G E HG).
    + intros x. rewrite nodes_subgraph. naive_solver.
    + intros a b w. rewrite edge_between_edges.
      * rewrite neighbors_subgraph. split.
        -- intros (? & ? & Hw%(rep_weight G E HG)). done.
        -- intros (Ha & Hb & Hw). repeat split; [done..|].
           destruct (proj2 (rep_adjacent G E HG a b)) as [w' Hw']; [by exists w|].
           apply (rep_weight G E HG) in Hw' as Hw''.
           by rewrite (Hsimple a b w w').
      * intros x y [w0 Hw%neighbors_subgraph]. rewrite !nodes_subgraph.
        destruct Hw as (Hx & Hy & Hw). split; (split; [done|]); by apply Hsub.
      * intros x y. apply option_eq. intros w0. rewrite !neighbors_subgraph.
        rewrite (rep_sym G E HG x y). tauto.
  - destruct Hmax as [Hnil _]. destruct E as [|[[u v] w] E] using rev_ind; [done|].
    assert (u ∈ nodes G) as Hu.
    { apply (rep_nodes G _ HG). exists v, w. left. apply elem_of_app. right. left. }
    destruct (Hcomplete u Hu) as (c & Hc & _). rewrite Hnil in Hc.
    by apply elem_of_nil in Hc.
Qed.

Lemma largest_component_nil `{Countable K} :
  largest_component (K := K) [] = Raise ValueError.
Proof. reflexivity. Qed.

(** C4 at the input the script mishandles. The one officer of a single
    company shares it with nobody: the officer projection is the empty
    list, [max] finds no component in the empty graph, and the run ends
    with [ValueError] where the claim returns an empty graph. *)
Theorem component_filter_empty_graph :
  officer_edges (H := seed_up) (rows_of lone_company) = OK [] ∧
  largest_component ([] : list (Unique * Unique * nat)) = Raise ValueError ∧
  create_networks (H := seed_up) lone_company = Raise ValueError.
Proof. split; [|split]; vm_compute; reflexivity. Qed.

(** ** The whole script *)

Lemma officer_edges_simple `{HashSeed} df E : officer_edges df = OK E → simple E.
Proof.
  intros HE a b w w' (_ & -> & _)%(officer_edge_between df E HE)
    (_ & -> & _)%(officer_edge_between df E HE). done.
Qed.

Lemma corp_edges_simple `{HashSeed} df E : corp_edges df = OK E → simple E.
Proof.
  intros HE a b w w' (_ & -> & _)%(corp_edge_between df E HE)
    (_ & -> & _)%(corp_edge_between df E HE). done.
Qed.

Lemma largest_component_OK `{Countable K} (E : list (K * K * nat)) G :
  largest_component E = OK G → simple E →
  ∃ c : gset K,
    (∃ v, (∃ y, adjacent E v y) ∧ ∀ y, y ∈ c ↔ connected E v y) ∧
    (∀ v (c' : gset K), (∃ y, adjacent E v y) →
       (∀ y, y ∈ c' ↔ connected E v y) → (size c' ≤ size c)%nat) ∧
    NoDup (nodes G) ∧
    (∀ x, x ∈ nodes G ↔ x ∈ c) ∧
    (∀ x, x ∈ c → ∃ y, adjacent E x y) ∧
    (∀ a b w, edge_between (edges G) a b w ↔ a ∈ c ∧ b ∈ c ∧ edge_between E a b w).
Proof.
  intros HG Hsimple. destruct (decide (E = [])) as [->|Hne]; [done|].
  destruct (largest_component_spec E Hne Hsimple) as (G' & c & HG' & Hspec).
  rewrite HG in HG'. injection HG' as <-. by exists c.
Qed.

(** What a run that ends without exception went through. *)
Lemma create_networks_OK `{HashSeed} (files : list file) (out : output) :
  create_networks files = OK out →
  ∃ company_list oe ce Go Gc utn mpo mpc,
    let df := officer_dict_list company_list in
    load_company_list files = OK company_list ∧
    officer_edges df = OK oe ∧ corp_edges df = OK ce ∧
    largest_component oe = OK Go ∧ largest_component ce = OK Gc ∧
    unique_to_name df = OK utn ∧
    for_each (λ corpid,
        names ← get_most_popular_officers (officers_by_company df)
                  (companies_by_officer df) utn corpid; OK (corpid, names))
      (set_iter (list_to_set (nodes Gc) : gset pyval)) = OK mpo ∧
    for_each (λ unique,
        names ← get_most_popular_companies (officers_by_company df)
                  (companies_by_officer df) (corpid_to_company_name df) unique;
        OK (unique, names))
      (map_to_list (companies_by_officer df)).*1 = OK mpc ∧
    officers_edges out = edges Go ∧
    corporations_edges out = edges Gc ∧
    corporations_attributes out =
      (λ corpid,
         {| cdf_CorpId := corpid;
            cdf_CompanyName := mjoin (corpid_to_company_name df !! corpid);
            cdf_AltName := mjoin (corpid_to_alt_name df !! corpid);
            cdf_Officers := default [] (dict_zip mpo !! corpid) |})
      <$> set_iter (list_to_set (nodes Gc) : gset pyval) ∧
    officers_attributes out =
      (λ unique,
         {| odf_OfficerUnique := unique;
            odf_FullName := utn !! Some unique;
            odf_IdNumber := mjoin (unique_to_id df !! unique);
            odf_Companies := default [] (dict_zip mpc !! unique) |})
      <$> set_iter (list_to_set (nodes Go) : gset Unique).
Proof.
  unfold create_networks. intros (company_list & Hload & Hrun)%bind_OK.
  exists company_list.
  apply bind_OK in Hrun as ([] & _ & Hrun).
  apply bind_OK in Hrun as (oe & Hoe & Hrun).
  apply bind_OK in Hrun as (ce & Hce & Hrun).
  apply bind_OK in Hrun as (Go & HGo & Hrun).
  apply bind_OK in Hrun as (Gc & HGc & Hrun).
  apply bind_OK in Hrun as (utn & Hutn & Hrun).
  apply bind_OK in Hrun as (mpo & Hmpo & Hrun).
  apply bind_OK in Hrun as (mpc & Hmpc & [= <-]).
  exists oe, ce, Go, Gc, utn, mpo, mpc. simpl. by repeat split.
Qed.

Lemma load_company_list_rows (files : list file) company_list :
  load_company_list files = OK company_list →
  officer_dict_list company_list = rows_of files.
Proof.
  unfold load_company_list, rows_of. intros Hload%for_each_OK. f_equal.
  induction Hload as [|f data files company_list Hf _ IH]; [done|].
  simpl. unfold json_load in Hf. destruct (file_data f); [done|].
  injection Hf as ->. simpl. by rewrite IH.
Qed.

Lemma load_company_list_succeeds (files : list file) :
  Forall (λ f, file_data f ≠ Malformed) files → succeeds (load_company_list files).
Proof.
  rewrite Forall_forall. intros Hall. apply for_each_succeeds.
  intros f Hf%Hall. unfold json_load. destruct (file_data f) as [|data]; [done|].
  by exists data.
Qed.

Lemma officers_of_None `{HashSeed} df E :
  officer_edges df = OK E → officers_of df None = ∅.
Proof.
  intros HE. apply set_eq. intros u. split; [|by intros ?%elem_of_empty].
  intros (row & Hrow & _ & Hnone)%elem_of_officers_of%elem_of_memberships.
  by destruct (officer_edges_CorpId df E row HE Hrow).
Qed.

(** The endpoints of the projected edges are keys of the indexes. *)
Lemma officer_edge_keys `{HashSeed} df E x y :
  officer_edges df = OK E → adjacent E x y →
  is_Some (companies_by_officer df !! x).
Proof.
  intros HE [w (_ & -> & Hpos%size_pos_iff)%(officer_edge_between df E HE)].
  apply companies_by_officer_is_Some. intros Hempty. apply Hpos.
  rewrite Hempty. apply (left_absorb_L ∅ (∩)).
Qed.

Lemma corp_edge_keys `{HashSeed} df E0 E x y :
  officer_edges df = OK E0 → corp_edges df = OK E → adjacent E x y →
  is_Some (officers_by_company df !! x).
Proof.
  intros HE0 HE [w (_ & -> & Hpos%size_pos_iff)%(corp_edge_between df E HE)].
  assert (officers_of df x ≠ ∅) as Hne.
  { intros Hempty. apply Hpos. rewrite Hempty. apply (left_absorb_L ∅ (∩)). }
  apply officers_by_company_is_Some. split; [|done].
  intros ->. by rewrite (officers_of_None df E0 HE0) in Hne.
Qed.

(** [{k: g(k) for k in l}], built from the pairs [(k, g(k))]. *)
Lemma for_each_tagged `{Countable K} {V} (g : K → result V) (l : list K)
    (kvs : list (K * V)) (k : K) :
  for_each (λ k, v ← g k; OK (k, v)) l = OK kvs → k ∈ l →
  ∃ v, g k = OK v ∧ dict_zip kvs !! k = Some v.
Proof.
  intros Hkvs Hk.
  assert (∀ kv, kv ∈ kvs → g kv.1 = OK kv.2) as Hall.
  { intros kv (k' & _ & (v & Hv & [= <-])%bind_OK)%(for_each_elem_of _ _ _ _ Hkvs). done. }
  destruct (for_each_item_succeeds _ _ _ k Hkvs Hk) as [kv (v & Hv & [= <-])%bind_OK].
  assert ((k, v) ∈ kvs) as Hin.
  { apply (for_each_elem_of _ _ _ _ Hkvs). exists k. split; [done|]. by rewrite Hv. }
  rewrite dict_zip_lookup.
  destruct (last (filter (λ kv, kv.1 = k) kvs)) as [[k' v']|] eqn:Hlast.
  - apply last_Some_elem_of, list_elem_of_filter in Hlast as [Hk' Hin'].
    simpl in Hk'. subst k'. apply Hall in Hin'. simpl in *.
    exists v'. by split.
  - apply last_None in Hlast.
    assert ((k, v) ∈ filter (λ kv : K * V, kv.1 = k) kvs) as Hin'
      by (by apply list_elem_of_filter).
    rewrite Hlast in Hin'. by apply elem_of_nil in Hin'.
Qed.

(** C8, as the code has it. In the tables of a run, every company and
    every officer kept by the component filter has exactly 3 ranked
    fields; the fields past the number of its affiliations are the empty
    string; and a node with exactly 1 affiliation has the name the lookup
    table holds for that affiliation, followed by 2 empty strings. *)
Theorem ranked_affiliations_padded `{HashSeed} (files : list file) (out : output) :
  create_networks files = OK out →
  ∃ utn, unique_to_name (rows_of files) = OK utn ∧
    (∀ r, r ∈ corporations_attributes out →
       length (cdf_Officers r) = 3 ∧
       (∀ i, (size (officers_of (rows_of files) (cdf_CorpId r)) ≤ i)%nat → i < 3 →
          cdf_Officers r !! i = Some "") ∧
       (∀ o, officers_of (rows_of files) (cdf_CorpId r) = {[o]} →
          cdf_Officers r = [dict_get utn (Some o) ""; ""; ""])) ∧
    (∀ r, r ∈ officers_attributes out →
       length (odf_Companies r) = 3 ∧
       (∀ i, (size (companies_of (rows_of files) (odf_OfficerUnique r)) ≤ i)%nat → i < 3 →
          odf_Companies r !! i = Some (Some "")) ∧
       (∀ c, companies_of (rows_of files) (odf_OfficerUnique r) = {[c]} →
          odf_Companies r =
            [dict_get (corpid_to_company_name (rows_of files)) c (Some "");
             Some ""; Some ""])).
Proof.
  intros (company_list & oe & ce & Go & Gc & utn & mpo & mpc & Hrun)%create_networks_OK.
  simpl in Hrun. destruct Hrun as (Hload%load_company_list_rows & Hrun).
  rewrite Hload in Hrun. clear Hload company_list.
  destruct Hrun as (Hoe & Hce & HGo & HGc & Hutn & Hmpo & Hmpc & _ & _ & Hcdf & Hodf).
  destruct (summarizers_padded (rows_of files) utn oe Hutn Hoe) as [Hofficers Hcompanies].
  exists utn. split; [done|]. split.
  - intros r. rewrite Hcdf. intros (corpid & -> & Hin)%list_elem_of_fmap. simpl.
    destruct (for_each_tagged _ _ _ corpid Hmpo Hin) as (names & Hnames & ->). simpl.
    rewrite set_iter_perm, elem_of_elements, elem_of_list_to_set in Hin.
    destruct (largest_component_OK ce Gc HGc (corp_edges_simple _ _ Hce))
      as (c & _ & _ & _ & Hnodes & Hends & _).
    apply Hnodes, Hends in Hin as [y Hy].
    destruct (Hofficers corpid) as (names' & Hnames' & Hspec).
    { by eapply corp_edge_keys. }
    rewrite Hnames in Hnames'. injection Hnames' as <-. done.
  - intros r. rewrite Hodf. intros (unique & -> & Hin)%list_elem_of_fmap. simpl.
    rewrite set_iter_perm, elem_of_elements, elem_of_list_to_set in Hin.
    destruct (largest_component_OK oe Go HGo (officer_edges_simple _ _ Hoe))
      as (c & _ & _ & _ & Hnodes & Hends & _).
    apply Hnodes, Hends in Hin as [y Hy].
    pose proof (officer_edge_keys _ _ _ _ Hoe Hy) as [cs Hkey].
    destruct (for_each_tagged _ _ _ unique Hmpc) as (names & Hnames & ->).
    { apply list_elem_of_fmap. exists (unique, cs). split; [done|].
      by apply elem_of_map_to_list. }
    simpl. destruct (Hcompanies unique) as (names' & Hnames' & Hspec); [by eexists|].
    rewrite Hnames in Hnames'. injection Hnames' as <-. done.
Qed.

Lemma ranked_affiliations_padded_witness :
  ∃ out, create_networks (H := seed_up) with_blank = OK out ∧
    ∀ r, r ∈ corporations_attributes out → length (cdf_Officers r) = 3.
Proof.
  eexists. split; [vm_compute; reflexivity|].
  destruct (ranked_affiliations_padded (H := seed_up) with_blank _
              ltac:(vm_compute; reflexivity)) as (utn & _ & Hcorps & _).
  intros r Hr. by destruct (Hcorps r Hr) as (Hlen & _).
Defined.

(** C7 (no self-loops). No edge of the officer projection, of the
    company projection, or of the two edge tables a run writes has equal
    endpoints. *)
Theorem no_self_loops `{HashSeed} (df : list Row) (files : list file) :
  (∀ E x y w, officer_edges df = OK E → (x, y, w) ∈ E → x ≠ y) ∧
  (∀ E x y w, corp_edges df = OK E → (x, y, w) ∈ E → x ≠ y) ∧
  (∀ out, create_networks files = OK out →
     (∀ x y w, (x, y, w) ∈ officers_edges out → x ≠ y) ∧
     (∀ x y w, (x, y, w) ∈ corporations_edges out → x ≠ y)).
Proof.
  destruct (projections_irreflexive df) as [Hofficers Hcorps].
  split; [done|]. split; [done|].
  intros out (company_list & oe & ce & Go & Gc & utn & mpo & mpc & Hrun)%create_networks_OK.
  simpl in Hrun.
  destruct Hrun as (_ & Hoe & Hce & HGo & HGc & _ & _ & _ & -> & -> & _).
  split; intros x y w Hin.
  - destruct (largest_component_OK oe Go HGo (officer_edges_simple _ _ Hoe))
      as (c & _ & _ & _ & _ & _ & Hedges).
    assert (edge_between (edges Go) x y w) as (_ & _ & Hxy)%Hedges by (by left).
    by apply (officer_edge_between _ _ Hoe) in Hxy as [? _].
  - destruct (largest_component_OK ce Gc HGc (corp_edges_simple _ _ Hce))
      as (c & _ & _ & _ & _ & _ & Hedges).
    assert (edge_between (edges Gc) x y w) as (_ & _ & Hxy)%Hedges by (by left).
    by apply (corp_edge_between _ _ Hce) in Hxy as [? _].
Qed.

Lemma no_self_loops_witness : O1 ≠ O2 ∧ (Some "C1" : pyval) ≠ Some "C3".
Proof.
  destruct (no_self_loops (H := seed_up) (rows_of three_companies) three_companies)
    as (Hofficers & _ & Hrun).
  split.
  - apply (Hofficers [(O2, O3, 1); (O1, O2, 1); (O1, O4, 1); (O3, O4, 1); (O1, O3, 1)]
             O1 O2 1); [vm_compute; reflexivity|].
    right. left.
  - destruct (Hrun _ ltac:(vm_compute; reflexivity)) as [_ Hcorps].
    apply (Hcorps (Some "C1") (Some "C3") 1). left.
Defined.

(** ** Files without the expected keys *)



(** A run that ends without exception went through the officer
    projection. *)
Lemma create_networks_officer_edges `{HashSeed} (files : list file) out :
  create_networks files = OK out → succeeds (officer_edges (rows_of files)).
Proof.
  intros (company_list & oe & ce & Go & Gc & utn & mpo & mpc & Hrun)%create_networks_OK.
  simpl in Hrun. destruct Hrun as (Hload%load_company_list_rows & Hoe & _).
  rewrite Hload in Hoe. by exists oe.
Qed.




(** ** Records with missing or empty keys *)

(** C9, as the code has it. No row is set aside: whatever its identity
    (a missing or empty name or id number is a value like any other), its
    corp_id is among the companies of its identity, and, unless the
    corp_id is missing, its identity is among the officers of its
    company. Whenever the officer projection returns, every row counts
    in it: the identities of two rows of one company, when they differ,
    are joined by an edge. The projection returns exactly when no row
    has a missing corp_id and Python can order the identities of every
    two rows of one company; otherwise it raises, and the run ends with
    an exception: no row is skipped. *)
Theorem no_record_rejected `{HashSeed} (df : list Row) :
  (∀ row, row ∈ df →
     CorpId row ∈ default ∅ (companies_by_officer df !! OfficerUnique row) ∧
     (CorpId row ≠ None →
        OfficerUnique row ∈ default ∅ (officers_by_company df !! CorpId row))) ∧
  (∀ E row row', officer_edges df = OK E → row ∈ df → row' ∈ df →
     CorpId row = CorpId row' → OfficerUnique row ≠ OfficerUnique row' →
     ∃ w, 0 < w ∧ edge_between E (OfficerUnique row) (OfficerUnique row') w) ∧
  (succeeds (officer_edges df) ↔
     (∀ row, row ∈ df → CorpId row ≠ None) ∧
     (∀ row row', row ∈ df → row' ∈ df → CorpId row = CorpId row' →
        OfficerUnique row ≠ OfficerUnique row' →
        succeeds (tuple_lt (OfficerUnique row) (OfficerUnique row')))) ∧
  (∀ files, df = rows_of files → ¬ succeeds (officer_edges df) →
     fails (create_networks files)).
Proof.
  assert (∀ row row', row ∈ df → row' ∈ df → CorpId row = CorpId row' →
            companies_of df (OfficerUnique row) ∩ companies_of df (OfficerUnique row') ≠ ∅)
    as Hshare.
  { intros row row' Hrow Hrow' Hcorp.
    assert (CorpId row ∈ companies_of df (OfficerUnique row)
                         ∩ companies_of df (OfficerUnique row')) as Hin; [|set_solver].
    apply elem_of_intersection.
    split; apply elem_of_companies_of, elem_of_memberships; eauto. }
  split; [|split; [|split]].
  - intros row Hrow.
    assert ((OfficerUnique row, CorpId row) ∈ memberships df) as Hm.
    { apply elem_of_memberships. eauto. }
    split.
    + rewrite companies_by_officer_lookup. apply elem_of_companies_of in Hm.
      case_decide; [set_solver|done].
    + intros Hc. rewrite officers_by_company_lookup. apply elem_of_officers_of in Hm.
      destruct (CorpId row); [|done]. case_decide; [set_solver|done].
  - intros E row row' HE Hrow Hrow' Hcorp Hne.
    exists (size (companies_of df (OfficerUnique row)
                  ∩ companies_of df (OfficerUnique row'))).
    assert (0 < size (companies_of df (OfficerUnique row)
                      ∩ companies_of df (OfficerUnique row'))) as Hpos.
    { apply size_pos_iff. by apply Hshare. }
    split; [done|]. by apply (officer_edge_between df E HE).
  - rewrite officer_edges_succeeds_iff. split; intros [Hcorp Hlt]; (split; [done|]).
    + intros row row' Hrow Hrow' Heq Hne. apply Hlt; [done|]. by apply Hshare.
    + intros a b Hne Hab.
      apply set_choose_L in Hab as [c [Ha Hb]%elem_of_intersection].
      apply elem_of_companies_of, elem_of_memberships in Ha as (row & Hrow & <- & <-).
      apply elem_of_companies_of, elem_of_memberships in Hb as (row' & Hrow' & <- & Hc).
      by apply Hlt.
  - intros files -> Hnot.
    destruct (create_networks files) as [out|e] eqn:Hrun; [|by exists e].
    destruct Hnot. by eapply create_networks_officer_edges.
Qed.

Lemma no_record_rejected_witness :
  Some "C8" ∈ default ∅ (companies_by_officer (rows_of with_blank) !! blank) ∧
  ∃ w, 0 < w ∧ edge_between [(blank, O2, 1)] blank O2 w.
Proof.
  destruct (no_record_rejected (H := seed_up) (rows_of with_blank))
    as (Hkept & Hedge & _).
  split.
  - destruct (Hkept (full_dict (corp_json "C8" "Eight") blank_officer)) as [Hcorp _].
    + left.
    + exact Hcorp.
  - apply (Hedge [(blank, O2, 1)]
             (full_dict (corp_json "C9" "Nine") blank_officer)
             (full_dict (corp_json "C9" "Nine") (officer_json "O2" "2"))).
    + vm_compute. reflexivity.
    + right. left.
    + right. right. left.
    + reflexivity.
    + discriminate.
Defined.

(** C9 as stated fails: the officer whose name is empty and whose id
    number is missing is a node of the officer graph, with an edge and a
    row of attributes, and the run reports nothing. *)
Lemma blank_identity_kept :
  OfficerUnique (full_dict (corp_json "C9" "Nine") blank_officer) = (Some "", None) ∧
  ∃ out, create_networks (H := seed_up) with_blank = OK out ∧
    officers_edges out = [(blank, O2, 1)] ∧
    blank ∈ odf_OfficerUnique <$> officers_attributes out.
Proof.
  split; [reflexivity|]. eexists. split; [vm_compute; reflexivity|].
  split; [reflexivity|]. simpl. right. left.
Qed.

(** * Further properties of the script *)

(** ** What a finished run holds *)

Lemma fmap_odf_OfficerUnique {A} (f : A → Unique) g1 g2 g3 (l : list A) :
  odf_OfficerUnique <$>
    ((λ x, {| odf_OfficerUnique := f x; odf_FullName := g1 x;
              odf_IdNumber := g2 x; odf_Companies := g3 x |}) <$> l) = f <$> l.
Proof. by rewrite <-list_fmap_compose. Qed.

Lemma fmap_cdf_CorpId {A} (f : A → pyval) g1 g2 g3 (l : list A) :
  cdf_CorpId <$>
    ((λ x, {| cdf_CorpId := f x; cdf_CompanyName := g1 x;
              cdf_AltName := g2 x; cdf_Officers := g3 x |}) <$> l) = f <$> l.
Proof. by rewrite <-list_fmap_compose. Qed.

Lemma largest_component_kept `{HashSeed} `{Countable K} (E : list (K * K * nat)) G :
  largest_component E = OK G → simple E →
  ∃ c : gset K,
    kept_component E (edges G) (set_iter (list_to_set (nodes G) : gset K)) (.∈ c).
Proof.
  intros HG Hsimple.
  destruct (largest_component_OK E G HG Hsimple)
    as (c & (v & Hv & Hc) & _ & _ & Hnodes & Hends & Hedges).
  exists c. split; [|split; [done|split; [|split; [|done]]]].
  - exists v. split; [|done]. apply Hc. constructor.
  - rewrite set_iter_perm. apply NoDup_elements.
  - intros x. by rewrite set_iter_perm, elem_of_elements, elem_of_list_to_set.
Qed.

Lemma create_networks_graphs `{HashSeed} (files : list file) (out : output) :
  create_networks files = OK out →
  ∃ oe ce utn (co : gset Unique) (cc : gset pyval),
    officer_edges (rows_of files) = OK oe ∧
    corp_edges (rows_of files) = OK ce ∧
    unique_to_name (rows_of files) = OK utn ∧
    kept_component oe (officers_edges out)
      (odf_OfficerUnique <$> officers_attributes out) (.∈ co) ∧
    kept_component ce (corporations_edges out)
      (cdf_CorpId <$> corporations_attributes out) (.∈ cc).
Proof.
  intros (company_list & oe & ce & Go & Gc & utn & mpo & mpc & Hrun)%create_networks_OK.
  simpl in Hrun. destruct Hrun as (Hload%load_company_list_rows & Hrun).
  rewrite Hload in Hrun. clear Hload company_list.
  destruct Hrun as (Hoe & Hce & HGo & HGc & Hutn & _ & _ & -> & -> & -> & ->).
  destruct (largest_component_kept oe Go HGo (officer_edges_simple _ _ Hoe)) as [co Hco].
  destruct (largest_component_kept ce Gc HGc (corp_edges_simple _ _ Hce)) as [cc Hcc].
  exists oe, ce, utn, co, cc.
  rewrite fmap_odf_OfficerUnique, fmap_cdf_CorpId, !list_fmap_id. done.
Qed.

Lemma kept_component_edge {K} (E table : list (K * K * nat)) keys c x :
  kept_component E table keys c →
  x ∈ keys ↔ ∃ y w, edge_between table x y w.
Proof.
  intros ((v & Hv & Hc) & Hends & _ & Hkeys & Hedges). rewrite Hkeys. split.
  - intros Hx. destruct (Hends x Hx) as (y & w & Hxy). exists y, w.
    apply Hedges. repeat split; [done| |done].
    apply Hc. eapply rtc_r; [by apply Hc|]. by exists w.
  - intros (y & w & (? & _)%Hedges). done.
Qed.

(** X1 (edge tables). In the tables of a run, two officers are joined by
    an edge of weight [w] exactly when both have a row of attributes, they
    are distinct, and [w] is the number of companies they share, which is
    at least 1; likewise for two companies and the officers they share. *)
Theorem edge_tables_weights `{HashSeed} (files : list file) (out : output) :
  create_networks files = OK out →
  (∀ a b w, edge_between (officers_edges out) a b w ↔
     a ∈ odf_OfficerUnique <$> officers_attributes out ∧
     b ∈ odf_OfficerUnique <$> officers_attributes out ∧
     a ≠ b ∧
     w = size (companies_of (rows_of files) a ∩ companies_of (rows_of files) b) ∧
     (1 ≤ w)%nat) ∧
  (∀ a b w, edge_between (corporations_edges out) a b w ↔
     a ∈ cdf_CorpId <$> corporations_attributes out ∧
     b ∈ cdf_CorpId <$> corporations_attributes out ∧
     a ≠ b ∧
     w = size (officers_of (rows_of files) a ∩ officers_of (rows_of files) b) ∧
     (1 ≤ w)%nat).
Proof.
  intros (oe & ce & utn & co & cc & Hoe & Hce & _ & Hco & Hcc)%create_networks_graphs.
  destruct Hco as (_ & _ & _ & Hokeys & Hoedges).
  destruct Hcc as (_ & _ & _ & Hckeys & Hcedges).
  split; intros a b w.
  - rewrite Hoedges, !Hokeys, (officer_edge_between _ _ Hoe). tauto.
  - rewrite Hcedges, !Hckeys, (corp_edge_between _ _ Hce). tauto.
Qed.

Lemma edge_tables_weights_witness :
  ∃ out, create_networks (H := seed_up) three_companies = OK out ∧
    ∀ w, edge_between (officers_edges out) O1 O3 w →
      w = size (companies_of (rows_of three_companies) O1
                ∩ companies_of (rows_of three_companies) O3).
Proof.
  eexists. split; [vm_compute; reflexivity|].
  destruct (edge_tables_weights (H := seed_up) three_companies _
              ltac:(vm_compute; reflexivity)) as [Hofficers _].
  intros w Hw. apply Hofficers in Hw as (_ & _ & _ & Hw & _). exact Hw.
Defined.

(** X2 (attribute tables). The tables of attributes of a run are not
    empty and hold one row per node; a node has a row exactly when the
    table of edges has an edge at it, so no officer without a fellow
    officer and no company without a shared officer is listed. *)
Theorem attribute_rows_are_edge_endpoints `{HashSeed} (files : list file) (out : output) :
  create_networks files = OK out →
  (NoDup (odf_OfficerUnique <$> officers_attributes out) ∧
   officers_attributes out ≠ [] ∧
   ∀ u, u ∈ odf_OfficerUnique <$> officers_attributes out ↔
        ∃ v w, edge_between (officers_edges out) u v w) ∧
  (NoDup (cdf_CorpId <$> corporations_attributes out) ∧
   corporations_attributes out ≠ [] ∧
   ∀ c, c ∈ cdf_CorpId <$> corporations_attributes out ↔
        ∃ d w, edge_between (corporations_edges out) c d w).
Proof.
  intros (oe & ce & utn & co & cc & _ & _ & _ & Hco & Hcc)%create_networks_graphs.
  split.
  - pose proof (λ x, kept_component_edge _ _ _ _ x Hco) as Hedge.
    destruct Hco as ((v & Hv & _) & _ & Hnodup & Hkeys & _).
    split; [done|]. split; [|exact Hedge].
    intros Hnil. apply Hkeys in Hv. rewrite Hnil in Hv. by apply elem_of_nil in Hv.
  - pose proof (λ x, kept_component_edge _ _ _ _ x Hcc) as Hedge.
    destruct Hcc as ((v & Hv & _) & _ & Hnodup & Hkeys & _).
    split; [done|]. split; [|exact Hedge].
    intros Hnil. apply Hkeys in Hv. rewrite Hnil in Hv. by apply elem_of_nil in Hv.
Qed.

Lemma attribute_rows_are_edge_endpoints_witness :
  ∃ out, create_networks (H := seed_up) three_companies = OK out ∧
    NoDup (odf_OfficerUnique <$> officers_attributes out).
Proof.
  eexists. split; [vm_compute; reflexivity|].
  destruct (attribute_rows_are_edge_endpoints (H := seed_up) three_companies _
              ltac:(vm_compute; reflexivity)) as [(Hnodup & _) _].
  exact Hnodup.
Defined.

Lemma last_filter_Some {A} (P : A → Prop) `{!∀ x, Decision (P x)} (l : list A) x :
  x ∈ l → P x → ∃ y, last (filter P l) = Some y ∧ y ∈ l ∧ P y.
Proof.
  intros Hx HP.
  destruct (last (filter P l)) as [y|] eqn:Hlast.
  - exists y. split; [done|].
    apply last_Some_elem_of, list_elem_of_filter in Hlast. tauto.
  - apply last_None in Hlast.
    assert (x ∈ filter P l) as Hin by (by apply list_elem_of_filter).
    rewrite Hlast in Hin. by apply elem_of_nil in Hin.
Qed.

Lemma companies_of_row df u :
  companies_of df u ≠ ∅ → ∃ row, row ∈ df ∧ OfficerUnique row = u.
Proof.
  intros [c Hc]%set_choose_L.
  apply elem_of_companies_of, elem_of_memberships in Hc as (row & ? & ? & _). eauto.
Qed.

Lemma officers_of_row df c :
  officers_of df c ≠ ∅ → ∃ row, row ∈ df ∧ CorpId row = c.
Proof.
  intros [u Hu]%set_choose_L.
  apply elem_of_officers_of, elem_of_memberships in Hu as (row & ? & _ & ?). eauto.
Qed.

(** X3 (fields of the attribute tables). In the tables of a run, the
    [IdNumber] of an officer is the second component of its key, and its
    [FullName] is never missing: it is the trimmed [FullName] of the last
    input row of that identity. The corp_id of a company row is never
    missing, and its [CompanyName] and [AltName] are those of the last
    input row of that corp_id. *)
Theorem attribute_fields `{HashSeed} (files : list file) (out : output) :
  create_networks files = OK out →
  (∀ r, r ∈ officers_attributes out →
     odf_IdNumber r = (odf_OfficerUnique r).2 ∧
     ∃ row name,
       last (filter (λ row, OfficerUnique row = odf_OfficerUnique r) (rows_of files))
         = Some row ∧
       FullName row = Some name ∧
       odf_FullName r = Some (strip name)) ∧
  (∀ r, r ∈ corporations_attributes out →
     ∃ id row,
       cdf_CorpId r = Some id ∧
       last (filter (λ row, CorpId row = cdf_CorpId r) (rows_of files)) = Some row ∧
       cdf_CompanyName r = CompanyName row ∧
       cdf_AltName r = AltName row).
Proof.
  intros (company_list & oe & ce & Go & Gc & utn & mpo & mpc & Hrun)%create_networks_OK.
  simpl in Hrun. destruct Hrun as (Hload%load_company_list_rows & Hrun).
  rewrite Hload in Hrun. clear Hload company_list.
  destruct Hrun as (Hoe & Hce & HGo & HGc & Hutn & _ & _ & _ & _ & Hcdf & Hodf).
  split.
  - intros r. rewrite Hodf. intros (unique & -> & Hin)%list_elem_of_fmap. simpl.
    rewrite set_iter_perm, elem_of_elements, elem_of_list_to_set in Hin.
    destruct (largest_component_OK oe Go HGo (officer_edges_simple _ _ Hoe))
      as (c & _ & _ & _ & Hnodes & Hends & _).
    apply Hnodes, Hends in Hin as [y Hy].
    apply (officer_edge_keys _ _ _ _ Hoe), companies_by_officer_is_Some,
      companies_of_row in Hy as (row0 & Hrow0 & Hid0).
    destruct (last_filter_Some (λ row, OfficerUnique row = unique) (rows_of files) row0)
      as (row & Hlast & Hrow & Hid); [done..|].
    split.
    + unfold unique_to_id. rewrite dict_zip_fmap_lookup, Hlast. simpl. by rewrite <-Hid.
    + destruct (unique_to_name_OK _ _ Hutn) as [Hall _].
      rewrite Forall_forall in Hall. destruct (Hall row Hrow) as [name Hname].
      exists row, name. repeat split; [done..|].
      rewrite (unique_to_name_lookup _ _ unique Hutn), Hlast. simpl. by rewrite Hname.
  - intros r. rewrite Hcdf. intros (corpid & -> & Hin)%list_elem_of_fmap. simpl.
    rewrite set_iter_perm, elem_of_elements, elem_of_list_to_set in Hin.
    destruct (largest_component_OK ce Gc HGc (corp_edges_simple _ _ Hce))
      as (c & _ & _ & _ & Hnodes & Hends & _).
    apply Hnodes, Hends in Hin as [y Hy].
    apply (corp_edge_keys _ _ _ _ _ Hoe Hce), officers_by_company_is_Some in Hy
      as [Hsome (row0 & Hrow0 & Hid0)%officers_of_row].
    destruct (last_filter_Some (λ row, CorpId row = corpid) (rows_of files) row0)
      as (row & Hlast & Hrow & Hid); [done..|].
    destruct corpid as [id|]; [|done]. exists id, row.
    rewrite corpid_to_company_name_lookup, corpid_to_alt_name_lookup, Hlast. done.
Qed.

Lemma attribute_fields_witness :
  ∃ out, create_networks (H := seed_up) respelled = OK out ∧
    ∀ r, r ∈ officers_attributes out → odf_IdNumber r = (odf_OfficerUnique r).2.
Proof.
  eexists. split; [vm_compute; reflexivity|].
  destruct (attribute_fields (H := seed_up) respelled _
              ltac:(vm_compute; reflexivity)) as [Hofficers _].
  intros r Hr. by destruct (Hofficers r Hr) as [Hid _].
Defined.

Lemma for_each_Raise_inv {A B} (f : A → result B) (l : list A) (e : exn) :
  for_each f l = Raise e → ∃ x, x ∈ l ∧ f x = Raise e.
Proof.
  induction l as [|x l IH]; [done|]. simpl.
  destruct (f x) as [y|e'] eqn:Hx; simpl.
  - destruct (for_each f l) as [ys|e'] eqn:Hl; simpl; [done|].
    intros [= ->]. destruct IH as (x' & ? & ?); [done|].
    exists x'. split; [by right|done].
  - intros [= ->]. exists x. split; [left|done].
Qed.

(** X4 (missing display name). [unique_to_name] raises [AttributeError]
    exactly when some row has no [FullName], and then the whole run ends
    with an exception, whether or not that officer is in the graph. *)
Theorem missing_full_name_aborts `{HashSeed} :
  (∀ df, unique_to_name df = Raise AttributeError ↔
     ∃ row, row ∈ df ∧ FullName row = None) ∧
  (∀ df, succeeds (unique_to_name df) ↔ Forall (λ row, is_Some (FullName row)) df) ∧
  (∀ files row, row ∈ rows_of files → FullName row = None →
     fails (create_networks files)).
Proof.
  assert (∀ df row, row ∈ df → FullName row = None →
            unique_to_name df = Raise AttributeError) as Hraise.
  { intros df row Hrow Hnone. unfold unique_to_name.
    rewrite (for_each_Raise _ df AttributeError row); [done|done| |].
    - by rewrite Hnone.
    - intros row' e'. by destruct (FullName row'); intros [= <-]. }
  split; [|split].
  - intros df. split; [|intros (row & ? & ?); by eapply Hraise].
    unfold unique_to_name.
    destruct (for_each _ df) as [names|e] eqn:Hnames; simpl; [done|].
    intros [= ->]. apply for_each_Raise_inv in Hnames as (row & Hrow & Hf).
    exists row. split; [done|]. by destruct (FullName row).
  - intros df. split; [intros [utn Hutn]; by apply unique_to_name_OK in Hutn as [? _]|].
    apply unique_to_name_succeeds.
  - intros files row Hrow Hnone.
    destruct (create_networks files) as [out|e] eqn:Hrun; [|by exists e].
    apply create_networks_graphs in Hrun as (_ & _ & utn & _ & _ & _ & _ & Hutn & _).
    by rewrite (Hraise _ row Hrow Hnone) in Hutn.
Qed.

Lemma missing_full_name_aborts_witness :
  fails (create_networks (H := seed_up) without_full_name).
Proof.
  destruct (missing_full_name_aborts (H := seed_up)) as (_ & _ & Hrun).
  apply (Hrun without_full_name (full_dict (corp_json "C2" "Two") nameless_officer)).
  - right. right. left.
  - reflexivity.
Defined.

(** ** Ranking by popularity *)

Lemma sorted_desc_weakly_sorted {A} (l : list (A * nat)) :
  StronglySorted (λ x y, (y.2 ≤ x.2)%nat) (sorted_desc l).
Proof.
  induction l as [|x l IH]; simpl; [constructor|].
  revert IH. generalize (sorted_desc l). clear l. intros l.
  induction 1 as [|y l Hl IH Hy]; simpl; [repeat constructor|].
  case_decide as Hlt.
  - constructor; [done|]. rewrite insert_desc_perm. constructor; [lia|done].
  - constructor; [by constructor|]. constructor; [lia|].
    eapply Forall_impl; [exact Hy|]. intros z. simpl. lia.
Qed.

(** The keys come out of the sort by decreasing size of their sets. *)
Lemma ranked_sorted `{Countable K, Countable V}
    (index : gmap K (gset V)) (f : K → nat) (l : list K) :
  (∀ k, size (default ∅ (index !! k)) = f k) →
  StronglySorted (λ k1 k2, (f k2 ≤ f k1)%nat) (sorted_desc (popularity index <$> l)).*1.
Proof.
  intros Hf.
  assert (Forall (λ kv, kv.2 = f kv.1) (sorted_desc (popularity index <$> l))) as Hall.
  { rewrite sorted_desc_perm. apply Forall_fmap, Forall_forall. intros k _. apply Hf. }
  pose proof (sorted_desc_weakly_sorted (popularity index <$> l)) as Hsorted.
  induction Hsorted as [|kv d Hd IH Hkv]; simpl; [constructor|].
  apply Forall_cons in Hall as [Hkv' Hall]. constructor; [by apply IH|].
  apply Forall_fmap, Forall_forall. intros kv' Hin. simpl.
  rewrite Forall_forall in Hkv, Hall. rewrite <-Hkv', <-(Hall kv' Hin). by apply Hkv.
Qed.

Lemma ranked_perm `{HashSeed} `{Countable K, Countable V}
    (index : gmap K (gset V)) (X : gset K) :
  (sorted_desc (popularity index <$> set_iter X)).*1 ≡ₚ elements X.
Proof.
  rewrite sorted_desc_perm, <-(set_iter_perm X).
  assert (∀ l : list K, (popularity index <$> l).*1 = l) as ->; [|done].
  intros l. induction l as [|k l IH]; [done|]. simpl. f_equal. exact IH.
Qed.

Lemma popularity_companies_of df u :
  size (default ∅ (companies_by_officer df !! u)) = size (companies_of df u).
Proof.
  rewrite companies_by_officer_lookup. case_decide as Hempty; [|done].
  by rewrite Hempty.
Qed.

Lemma popularity_officers_of `{HashSeed} df E c :
  officer_edges df = OK E →
  size (default ∅ (officers_by_company df !! c)) = size (officers_of df c).
Proof.
  intros HE. rewrite officers_by_company_lookup. destruct c as [id|].
  - case_decide as Hempty; [|done]. by rewrite Hempty.
  - by rewrite (officers_of_None df E HE).
Qed.

(** X5 (ranking by popularity). In the tables of a run, the three officer
    fields of a company are the first three entries, resolved to display
    names and padded, of a list that holds every officer of the company
    once, an officer of more companies before an officer of fewer; and
    the three company fields of an officer are the first three entries,
    resolved to company names and padded, of a list that holds every
    company of the officer once, a company of more officers before a
    company of fewer. *)
Theorem ranked_by_popularity `{HashSeed} (files : list file) (out : output) :
  create_networks files = OK out →
  ∃ utn, unique_to_name (rows_of files) = OK utn ∧
    (∀ r, r ∈ corporations_attributes out →
       ∃ ranked : list Unique,
         ranked ≡ₚ elements (officers_of (rows_of files) (cdf_CorpId r)) ∧
         StronglySorted (λ o1 o2, (size (companies_of (rows_of files) o2)
                                   ≤ size (companies_of (rows_of files) o1))%nat) ranked ∧
         cdf_Officers r =
           (λ name, dict_get utn name "") <$> top3 None (Some <$> ranked)) ∧
    (∀ r, r ∈ officers_attributes out →
       ∃ ranked : list pyval,
         ranked ≡ₚ elements (companies_of (rows_of files) (odf_OfficerUnique r)) ∧
         StronglySorted (λ c1 c2, (size (officers_of (rows_of files) c2)
                                   ≤ size (officers_of (rows_of files) c1))%nat) ranked ∧
         odf_Companies r =
           (λ name, dict_get (corpid_to_company_name (rows_of files)) name (Some ""))
             <$> top3 None ranked).
Proof.
  intros (company_list & oe & ce & Go & Gc & utn & mpo & mpc & Hrun)%create_networks_OK.
  simpl in Hrun. destruct Hrun as (Hload%load_company_list_rows & Hrun).
  rewrite Hload in Hrun. clear Hload company_list.
  destruct Hrun as (Hoe & Hce & HGo & HGc & Hutn & Hmpo & Hmpc & _ & _ & Hcdf & Hodf).
  exists utn. split; [done|]. split.
  - intros r. rewrite Hcdf. intros (corpid & -> & Hin)%list_elem_of_fmap. simpl.
    destruct (for_each_tagged _ _ _ corpid Hmpo Hin) as (names & Hnames & ->). simpl.
    rewrite set_iter_perm, elem_of_elements, elem_of_list_to_set in Hin.
    destruct (largest_component_OK ce Gc HGc (corp_edges_simple _ _ Hce))
      as (c & _ & _ & _ & Hnodes & Hends & _).
    apply Hnodes, Hends in Hin as [y Hy].
    destruct (get_most_popular_officers_succeeds (rows_of files) utn corpid)
      as (names' & Hnames' & ->); [by eapply corp_edge_keys|].
    rewrite Hnames in Hnames'. injection Hnames' as ->.
    exists (sorted_desc (popularity (companies_by_officer (rows_of files))
                           <$> set_iter (officers_of (rows_of files) corpid))).*1.
    split; [apply ranked_perm|]. split; [|done].
    apply ranked_sorted, popularity_companies_of.
  - intros r. rewrite Hodf. intros (unique & -> & Hin)%list_elem_of_fmap. simpl.
    rewrite set_iter_perm, elem_of_elements, elem_of_list_to_set in Hin.
    destruct (largest_component_OK oe Go HGo (officer_edges_simple _ _ Hoe))
      as (c & _ & _ & _ & Hnodes & Hends & _).
    apply Hnodes, Hends in Hin as [y Hy].
    pose proof (officer_edge_keys _ _ _ _ Hoe Hy) as [cs Hkey].
    destruct (for_each_tagged _ _ _ unique Hmpc) as (names & Hnames & ->).
    { apply list_elem_of_fmap. exists (unique, cs). split; [done|].
      by apply elem_of_map_to_list. }
    simpl.
    destruct (get_most_popular_companies_succeeds (rows_of files) oe
                (corpid_to_company_name (rows_of files)) unique Hoe)
      as (names' & Hnames' & ->); [by eexists|].
    rewrite Hnames in Hnames'. injection Hnames' as ->.
    exists (sorted_desc (popularity (officers_by_company (rows_of files))
                           <$> set_iter (companies_of (rows_of files) unique))).*1.
    split; [apply ranked_perm|]. split; [|done].
    apply ranked_sorted. intros k. by eapply popularity_officers_of.
Qed.

Lemma ranked_by_popularity_witness :
  ∃ out, create_networks (H := seed_up) three_companies = OK out ∧
    ∀ r, r ∈ corporations_attributes out →
      ∃ ranked : list Unique,
        ranked ≡ₚ elements (officers_of (rows_of three_companies) (cdf_CorpId r)).
Proof.
  eexists. split; [vm_compute; reflexivity|].
  destruct (ranked_by_popularity (H := seed_up) three_companies _
              ltac:(vm_compute; reflexivity)) as (utn & _ & Hcorps & _).
  intros r Hr. destruct (Hcorps r Hr) as (ranked & Hperm & _).
  exists ranked. exact Hperm.
Defined.

(** ** When the projections raise *)

(** X6 (when the projections raise). The officer projection raises exactly
    when some row has no corp_id, or two distinct officers of one company
    have keys that Python cannot order: at the first position where the
    keys differ, one of the two components is missing. The company
    projection raises exactly when some officer has a row with a corp_id
    and a row without. So on rows whose corp_id and key components are
    all present neither raises. *)
Theorem projections_raise_iff `{HashSeed} (df : list Row) :
  (fails (officer_edges df) ↔
     (∃ row, row ∈ df ∧ CorpId row = None) ∨
     (∃ a b, a ≠ b ∧ companies_of df a ∩ companies_of df b ≠ ∅ ∧
             fails (tuple_lt a b))) ∧
  (fails (corp_edges df) ↔
     ∃ row row', row ∈ df ∧ row' ∈ df ∧ OfficerUnique row = OfficerUnique row' ∧
                 CorpId row ≠ None ∧ CorpId row' = None) ∧
  (Forall complete_row df → succeeds (officer_edges df) ∧ succeeds (corp_edges df)).
Proof.
  assert (∀ A (m : result A), fails m ↔ ¬ succeeds m) as Hfails.
  { intros A [a|e]; split.
    - by intros [e He].
    - intros []. by exists a.
    - by intros _ [a Ha].
    - intros _. by exists e. }
  assert (∀ a b, Decision (fails (tuple_lt a b))) as Hdec.
  { intros a b. destruct (tuple_lt a b) as [lt|e]; [right; by intros [? ?]|left; by exists e]. }
  split; [|split].
  - rewrite Hfails, officer_edges_succeeds_iff. split.
    + intros Hnot.
      destruct (decide (Exists (λ row, CorpId row = None) df)) as [Hex|Hall].
      { left. apply Exists_exists in Hex. exact Hex. }
      set (L := OfficerUnique <$> df).
      destruct (decide (Exists (λ a, Exists (λ b,
                  a ≠ b ∧ companies_of df a ∩ companies_of df b ≠ ∅ ∧
                  fails (tuple_lt a b)) L) L)) as [Hex|Hno].
      { right. apply Exists_exists in Hex as (a & _ & Hex).
        apply Exists_exists in Hex as (b & _ & Hab). by exists a, b. }
      destruct Hnot. split.
      * intros row Hrow Hc. apply Hall, Exists_exists. eauto.
      * intros a b Hne Hshare.
        destruct (tuple_lt a b) as [lt|e] eqn:Hlt; [by exists lt|].
        destruct Hno. apply Exists_exists. exists a. split.
        { destruct (companies_of_row df a) as (row & Hrow & <-).
          - intros Hempty. apply Hshare. rewrite Hempty. apply (left_absorb_L ∅ (∩)).
          - apply list_elem_of_fmap. eauto. }
        apply Exists_exists. exists b. split.
        { destruct (companies_of_row df b) as (row & Hrow & <-).
          - intros Hempty. apply Hshare. rewrite Hempty. apply (right_absorb_L ∅ (∩)).
          - apply list_elem_of_fmap. eauto. }
        repeat split; [done..|]. rewrite Hlt. by exists e.
    + intros [(row & Hrow & Hc)|(a & b & Hne & Hshare & Hlt%Hfails)] [Hcorp Hsucc].
      * by apply (Hcorp row).
      * by apply Hlt, Hsucc.
  - rewrite Hfails, corp_edges_succeeds_iff. split.
    + intros Hnot.
      destruct (decide (Exists (λ row, Exists (λ row',
                  OfficerUnique row = OfficerUnique row' ∧
                  CorpId row ≠ None ∧ CorpId row' = None) df) df)) as [Hex|Hno].
      { apply Exists_exists in Hex as (row & Hrow & Hex).
        apply Exists_exists in Hex as (row' & Hrow' & Hpair). by exists row, row'. }
      destruct Hnot. intros c Hc. apply set_eq. intros u.
      split; [|by intros ?%elem_of_empty].
      intros [(row & Hrow & Hu & Hcorp)%elem_of_officers_of%elem_of_memberships
              (row' & Hrow' & Hu' & Hcorp')%elem_of_officers_of%elem_of_memberships
             ]%elem_of_intersection.
      destruct Hno. apply Exists_exists. exists row. split; [done|].
      apply Exists_exists. exists row'. split; [done|].
      repeat split; congruence.
    + intros (row & row' & Hrow & Hrow' & Hu & Hc & Hc') Hsucc.
      apply (not_elem_of_empty (C := gset Unique) (OfficerUnique row)).
      rewrite <-(Hsucc (CorpId row) Hc). apply elem_of_intersection.
      split; apply elem_of_officers_of, elem_of_memberships; [by eauto|].
      exists row'. by rewrite Hu.
  - apply projections_succeed.
Qed.

Lemma projections_raise_iff_witness :
  succeeds (officer_edges (H := seed_up) (rows_of three_companies)) ∧
  succeeds (corp_edges (H := seed_up) (rows_of three_companies)).
Proof.
  destruct (projections_raise_iff (H := seed_up) (rows_of three_companies))
    as (_ & _ & Hcomplete).
  apply Hcomplete. apply (bool_decide_unpack _). vm_compute. exact I.
Defined.

(** ** The projections and the hash seed *)

Section projection_seed.
Context `{Countable K, Countable J}.
Variable key_lt : K → K → result bool.
Variable own : gmap K (gset J).
Variable opp : gmap J (gset K).
Variable rel : K → gset J.
Hypothesis own_rel : ∀ n os, own !! n = Some os → os = rel n.
Hypothesis opp_rel : ∀ o ms, opp !! o = Some ms → ∀ n, n ∈ ms ↔ o ∈ rel n.

Lemma co_members_is_Some (h : HashSeed) n l os o :
  co_members (H := h) own opp n = OK l → own !! n = Some os → o ∈ os →
  is_Some (opp !! o).
Proof.
  unfold co_members. intros (os' & Hos%getitem_OK & Hl)%bind_OK Hn Ho.
  rewrite Hn in Hos. injection Hos as <-.
  destruct (for_extend_item_succeeds _ _ _ o Hl) as [ms Hms].
  { by rewrite set_iter_perm, elem_of_elements. }
  apply bind_OK in Hms as (ms' & Hms'%getitem_OK & _). by exists ms'.
Qed.

Lemma projected_edges_seed (h1 h2 : HashSeed) E1 :
  projected_edges (H := h1) key_lt own opp = OK E1 →
  ∃ E2, projected_edges (H := h2) key_lt own opp = OK E2 ∧ E1 ≡ₚ E2.
Proof.
  intros HE1.
  destruct (projected_edges_succeeds (H := h2) key_lt own opp rel own_rel opp_rel)
    as [E2 HE2].
  - intros n os o Hn Ho. revert HE1. unfold projected_edges.
    intros (es & Hes & _)%bind_OK.
    destruct (for_extend_item_succeeds _ _ _ n Hes) as [es' Hes'].
    { apply list_elem_of_fmap. exists (n, os). split; [done|].
      by apply elem_of_map_to_list. }
    unfold edges_from in Hes'. apply bind_OK in Hes' as (l & Hl & _).
    exact (co_members_is_Some h1 n l os o Hl Hn Ho).
  - intros n m o Hn Hon Hom Hne.
    destruct (projected_edges_sorted (H := h1) key_lt own opp rel own_rel opp_rel
                E1 n m HE1 Hn Hne) as [st (lt & Hlt & _)%bind_OK].
    + apply size_pos_iff. intros Hempty.
      apply (not_elem_of_empty (C := gset J) o). rewrite <-Hempty.
      by apply elem_of_intersection.
    + by exists lt.
  - exists E2. split; [done|]. apply NoDup_Permutation.
    + by apply (projected_edges_NoDup (H := h1) key_lt own opp).
    + by apply (projected_edges_NoDup (H := h2) key_lt own opp).
    + intros [[x y] w].
      rewrite (projected_edges_spec (H := h1) key_lt own opp rel own_rel opp_rel E1 HE1).
      rewrite (projected_edges_spec (H := h2) key_lt own opp rel own_rel opp_rel E2 HE2).
      done.
Qed.
End projection_seed.

(** X7 (the projections and the hash seed). Whether a projection raises
    does not depend on the order in which Python iterates over its sets,
    and when it does not raise, the edges it returns under two hash seeds
    are the same edges, each once, in possibly different orders. *)
Theorem projections_hash_seed_independent (h1 h2 : HashSeed) (df : list Row) :
  (∀ E1, officer_edges (H := h1) df = OK E1 →
     ∃ E2, officer_edges (H := h2) df = OK E2 ∧ E1 ≡ₚ E2) ∧
  (∀ E1, corp_edges (H := h1) df = OK E1 →
     ∃ E2, corp_edges (H := h2) df = OK E2 ∧ E1 ≡ₚ E2).
Proof.
  split; intros E1 HE1.
  - exact (projected_edges_seed tuple_lt _ _ (companies_of df)
             (officer_own_rel df) (officer_opp_rel df) h1 h2 E1 HE1).
  - exact (projected_edges_seed pyval_lt _ _ (officers_of df)
             (corp_own_rel df) (corp_opp_rel df) h1 h2 E1 HE1).
Qed.

Lemma projections_hash_seed_independent_witness :
  ∃ E2, officer_edges (H := seed_down) (rows_of three_companies) = OK E2 ∧
    [(O2, O3, 1); (O1, O2, 1); (O1, O4, 1); (O3, O4, 1); (O1, O3, 1)] ≡ₚ E2.
Proof.
  destruct (projections_hash_seed_independent seed_up seed_down (rows_of three_companies))
    as [Hofficers _].
  apply Hofficers. vm_compute. reflexivity.
Defined.

(** ** Rows without corp_id *)

(** X8 (missing corp_id). A single row without corp_id makes the officer
    projection raise, and with it the whole run: no table is written. *)
Theorem missing_corp_id_aborts `{HashSeed} (files : list file) (row : Row) :
  row ∈ rows_of files → CorpId row = None →
  fails (officer_edges (rows_of files)) ∧ fails (create_networks files).
Proof.
  intros Hrow Hnone. split.
  - destruct (officer_edges (rows_of files)) as [E|e] eqn:HE; [|by exists e].
    by destruct (officer_edges_CorpId _ E row HE Hrow).
  - destruct (create_networks files) as [out|e] eqn:Hrun; [|by exists e].
    apply create_networks_graphs in Hrun as (oe & _ & _ & _ & _ & Hoe & _).
    by destruct (officer_edges_CorpId _ oe row Hoe Hrow).
Qed.

Lemma missing_corp_id_aborts_witness :
  fails (officer_edges (H := seed_up) (rows_of without_corp_id)) ∧
  fails (create_networks (H := seed_up) without_corp_id).
Proof.
  apply (missing_corp_id_aborts (H := seed_up) without_corp_id
           (full_dict {[ "CompanyName" := "One" ]} (officer_json "O1" "1"))).
  - left.
  - reflexivity.
Defined.

(** ** The membership indexes *)

(** X9 (membership indexes). The two indexes are inverse to each other on
    the rows with a corp_id: a company is in the set of an officer exactly
    when the officer is in the set of the company. No set of either index
    is empty; every identity of a row is a key of [companies_by_officer],
    also one whose components are missing; a corp_id is a key of
    [officers_by_company] exactly when some row carries it; and the
    missing corp_id is never a key. *)
Theorem membership_indexes_inverse (df : list Row) :
  (∀ u c, c ≠ None →
     c ∈ default ∅ (companies_by_officer df !! u) ↔
     u ∈ default ∅ (officers_by_company df !! c)) ∧
  (∀ u cs, companies_by_officer df !! u = Some cs → cs ≠ ∅) ∧
  (∀ c us, officers_by_company df !! c = Some us → us ≠ ∅) ∧
  (∀ u, is_Some (companies_by_officer df !! u) ↔
        ∃ row, row ∈ df ∧ OfficerUnique row = u) ∧
  (∀ c, is_Some (officers_by_company df !! c) ↔
        c ≠ None ∧ ∃ row, row ∈ df ∧ CorpId row = c).
Proof.
  assert (∀ u, default ∅ (companies_by_officer df !! u) = companies_of df u) as Hcbo.
  { intros u. rewrite companies_by_officer_lookup. by case_decide. }
  assert (∀ c, c ≠ None →
            default ∅ (officers_by_company df !! c) = officers_of df c) as Hobc.
  { intros [id|] Hc; [|done]. rewrite officers_by_company_lookup. by case_decide. }
  split; [|split; [|split; [|split]]].
  - intros u c Hc. rewrite Hcbo, (Hobc c Hc).
    by rewrite elem_of_companies_of, elem_of_officers_of.
  - intros u cs. rewrite companies_by_officer_lookup. case_decide; congruence.
  - intros c us. rewrite officers_by_company_lookup. destruct c; [|done].
    case_decide; congruence.
  - intros u. rewrite companies_by_officer_is_Some. split; [apply companies_of_row|].
    intros (row & Hrow & <-).
    assert (CorpId row ∈ companies_of df (OfficerUnique row)); [|set_solver].
    apply elem_of_companies_of, elem_of_memberships. eauto.
  - intros c. rewrite officers_by_company_is_Some.
    split; intros [Hc Hrows]; (split; [done|]); [by apply officers_of_row|].
    destruct Hrows as (row & Hrow & <-).
    assert (OfficerUnique row ∈ officers_of df (CorpId row)); [|set_solver].
    apply elem_of_officers_of, elem_of_memberships. eauto.
Qed.

(** ** The component filter on a list of edges *)

(** X10 (largest component). On a list of edges that is not empty, the
    component filter raises no exception and returns a graph whose nodes,
    each listed once, are a whole connected component of the list: from
    any of them, the nodes are exactly what a path of edges reaches. No
    component of the list has more nodes, and the edges of the graph are
    the edges of the list at these nodes, with their weights. *)
Theorem component_filter_keeps_largest `{Countable K} (E : list (K * K * nat)) :
  E ≠ [] → simple E →
  ∃ G, largest_component E = OK G ∧
    NoDup (nodes G) ∧ nodes G ≠ [] ∧
    (∀ x y, x ∈ nodes G → y ∈ nodes G ↔ connected E x y) ∧
    (∀ v (c' : gset K), (∃ y, adjacent E v y) → (∀ y, y ∈ c' ↔ connected E v y) →
       (size c' ≤ length (nodes G))%nat) ∧
    (∀ a b w, edge_between (edges G) a b w ↔ a ∈ nodes G ∧ edge_between E a b w).
Proof.
  intros Hne Hsimple.
  destruct (largest_component_spec E Hne Hsimple)
    as (G & c & HG & (v & Hv & Hc) & Hmax & Hnodup & Hnodes & Hends & Hedges).
  exists G. split; [done|]. split; [done|].
  assert (length (nodes G) = size c) as Hlen.
  { apply Permutation_length, NoDup_Permutation; [done|apply NoDup_elements|].
    intros x. by rewrite Hnodes, elem_of_elements. }
  split; [|split; [|split]].
  - intros Hnil. assert (v ∈ nodes G) as Hin by (apply Hnodes, Hc; constructor).
    rewrite Hnil in Hin. by apply elem_of_nil in Hin.
  - intros x y Hx%Hnodes%Hc. rewrite Hnodes, Hc. split.
    + intros Hy. etrans; [by apply connected_sym|done].
    + intros Hxy. by etrans.
  - intros u c' Hu Hc'. rewrite Hlen. by apply (Hmax u).
  - intros a b w. rewrite Hedges, Hnodes. split; [tauto|].
    intros [Ha Hab]. repeat split; [done| |done].
    apply Hc. eapply rtc_r; [by apply Hc|]. by exists w.
Qed.

Lemma component_filter_keeps_largest_witness :
  ∃ G, largest_component [(1, 2, 7); (2, 3, 1); (4, 5, 2)] = OK G ∧ NoDup (nodes G).
Proof.
  destruct (component_filter_keeps_largest [(1, 2, 7); (2, 3, 1); (4, 5, 2)])
    as (G & HG & Hnodup & _).
  - discriminate.
  - intros a b w w'. unfold edge_between.
    rewrite !elem_of_cons, !elem_of_nil. naive_solver.
  - exists G. split; [exact HG|exact Hnodup].
Defined.

(** ** The edges a graph reports *)

Section edges_facts.
Context `{Countable K}.
Implicit Types (G : Graph K).

Lemma edges_loop_fst G (l : list K) x y w :
  (x, y, w) ∈ (edges_loop G l).2 → x ∈ l.
Proof.
  destruct (edges_loop_spec G l) as [_ Hspec].
  intros (l1 & l2 & -> & _)%Hspec. apply elem_of_app. right. left.
Qed.

Lemma edges_loop_NoDup G (l : list K) : NoDup l → NoDup (edges_loop G l).2.
Proof.
  induction l as [|n l IH] using rev_ind; [constructor|].
  intros (Hl & Hn & _)%NoDup_app.
  unfold edges_loop in *. rewrite foldl_app. simpl.
  apply NoDup_app. split; [by apply IH|]. split.
  - intros [[x y] w] Hold ([z w'] & [= -> -> ->] & _)%list_elem_of_fmap.
    apply edges_loop_fst in Hold. apply (Hn n Hold). left.
  - apply NoDup_fmap_2; [by intros [? ?] [? ?] [= -> ->]|].
    apply NoDup_filter, NoDup_map_to_list.
Qed.

Lemma edges_one_way G x y w w' :
  NoDup (nodes G) → (x, y, w) ∈ edges G → (y, x, w') ∈ edges G → x = y.
Proof.
  intros Hnodup. destruct (edges_loop_spec G (nodes G)) as [_ Hspec].
  change (edges G) with (edges_loop G (nodes G)).2.
  intros (l1 & l2 & Hl & _ & Hy)%Hspec (l1' & l2' & Hl' & _ & Hx)%Hspec.
  destruct (decide (x = y)) as [|Hne]; [done|]. exfalso.
  rewrite Hl in Hl', Hnodup. clear Hl.
  assert (y ∈ l2) as Hin.
  { assert (y ∈ l1 ++ x :: l2) as [?|[?|?]%elem_of_cons]%elem_of_app; [|done..].
    rewrite Hl'. apply elem_of_app. right. left. }
  apply list_elem_of_split in Hin as (l3 & l4 & ->).
  assert (l1' = l1 ++ x :: l3) as ->.
  { apply NoDup_app in Hnodup as Hparts.
    change (l1 ++ x :: l3 ++ y :: l4) with (l1 ++ (x :: l3) ++ y :: l4) in Hl'.
    rewrite app_assoc in Hl'.
    assert (NoDup ((l1 ++ x :: l3) ++ y :: l4)) as Hnodup'.
    { by rewrite <-app_assoc. }
    clear Hparts Hnodup Hx Hy.
    revert l1' Hl' Hnodup'. generalize (l1 ++ x :: l3). intros k.
    induction k as [|z k IH]; intros [|z' k'] Hk Hnodup'; simpl in *.
    - done.
    - injection Hk as <- ->. apply NoDup_cons in Hnodup' as [Hy _].
      destruct Hy. apply elem_of_app. right. left.
    - injection Hk as -> <-. apply NoDup_cons in Hnodup' as [Hy _].
      destruct Hy. apply elem_of_app. right. left.
    - injection Hk as <- Hk. apply NoDup_cons in Hnodup' as [_ Hnodup'].
      f_equal. by apply IH. }
  apply Hx, elem_of_app. right. left.
Qed.
End edges_facts.

(** X11 (each edge once). In the two edge tables of a run no row is
    repeated, and no pair of nodes is listed in both orders: an edge of
    the component is one row, with one weight. *)
Theorem edge_tables_list_each_edge_once `{HashSeed} (files : list file) (out : output) :
  create_networks files = OK out →
  (NoDup (officers_edges out) ∧
   (∀ a b w w', (a, b, w) ∈ officers_edges out → (b, a, w') ∉ officers_edges out) ∧
   (∀ a b w w', (a, b, w) ∈ officers_edges out → (a, b, w') ∈ officers_edges out →
      w = w')) ∧
  (NoDup (corporations_edges out) ∧
   (∀ a b w w', (a, b, w) ∈ corporations_edges out → (b, a, w') ∉ corporations_edges out) ∧
   (∀ a b w w', (a, b, w) ∈ corporations_edges out → (a, b, w') ∈ corporations_edges out →
      w = w')).
Proof.
  intros (company_list & oe & ce & Go & Gc & utn & mpo & mpc & Hrun)%create_networks_OK.
  simpl in Hrun.
  destruct Hrun as (_ & Hoe & Hce & HGo & HGc & _ & _ & _ & -> & -> & _).
  split.
  - destruct (largest_component_OK oe Go HGo (officer_edges_simple _ _ Hoe))
      as (c & _ & _ & Hnodup & _ & _ & Hedges).
    split; [by apply edges_loop_NoDup|]. split.
    + intros a b w w' Hab Hba.
      assert (edge_between (edges Go) a b w) as (_ & _ & Hw)%Hedges by (by left).
      apply (officer_edge_between _ _ Hoe) in Hw as [Hne _].
      by apply Hne, (edges_one_way Go a b w w').
    + intros a b w w' Hw Hw'.
      assert (edge_between (edges Go) a b w) as (_ & _ & Hab)%Hedges by (by left).
      assert (edge_between (edges Go) a b w') as (_ & _ & Hab')%Hedges by (by left).
      by apply (officer_edges_simple _ _ Hoe a b).
  - destruct (largest_component_OK ce Gc HGc (corp_edges_simple _ _ Hce))
      as (c & _ & _ & Hnodup & _ & _ & Hedges).
    split; [by apply edges_loop_NoDup|]. split.
    + intros a b w w' Hab Hba.
      assert (edge_between (edges Gc) a b w) as (_ & _ & Hw)%Hedges by (by left).
      apply (corp_edge_between _ _ Hce) in Hw as [Hne _].
      by apply Hne, (edges_one_way Gc a b w w').
    + intros a b w w' Hw Hw'.
      assert (edge_between (edges Gc) a b w) as (_ & _ & Hab)%Hedges by (by left).
      assert (edge_between (edges Gc) a b w') as (_ & _ & Hab')%Hedges by (by left).
      by apply (corp_edges_simple _ _ Hce a b).
Qed.

Lemma edge_tables_list_each_edge_once_witness :
  ∃ out, create_networks (H := seed_up) three_companies = OK out ∧
    NoDup (officers_edges out).
Proof.
  eexists. split; [vm_compute; reflexivity|].
  destruct (edge_tables_list_each_edge_once (H := seed_up) three_companies _
              ltac:(vm_compute; reflexivity)) as [(Hnodup & _) _].
  exact Hnodup.
Defined.

(** ** The outcome of a run *)

(** The officer projection has an edge exactly when two distinct officers
    share a company, and the company projection exactly when two distinct
    companies share an officer. *)
Lemma officer_edges_nonempty `{HashSeed} df E :
  officer_edges df = OK E →
  E ≠ [] ↔ ∃ a b, a ≠ b ∧ companies_of df a ∩ companies_of df b ≠ ∅.
Proof.
  intros HE. split.
  - destruct E as [|[[a b] w] E']; [done|]. intros _.
    assert (edge_between (((a, b), w) :: E') a b w) as Hab by (left; left).
    apply (officer_edge_between _ _ HE) in Hab as (Hne & -> & Hpos%size_pos_iff).
    by exists a, b.
  - intros (a & b & Hne & Hpos%size_pos_iff) ->.
    assert (edge_between [] a b (size (companies_of df a ∩ companies_of df b)))
      as [Hin|Hin]; [by apply (officer_edge_between _ _ HE)|..];
      by apply elem_of_nil in Hin.
Qed.

Lemma corp_edges_nonempty `{HashSeed} df E :
  corp_edges df = OK E →
  E ≠ [] ↔ ∃ c d, c ≠ d ∧ officers_of df c ∩ officers_of df d ≠ ∅.
Proof.
  intros HE. split.
  - destruct E as [|[[c d] w] E']; [done|]. intros _.
    assert (edge_between (((c, d), w) :: E') c d w) as Hcd by (left; left).
    apply (corp_edge_between _ _ HE) in Hcd as (Hne & -> & Hpos%size_pos_iff).
    by exists c, d.
  - intros (c & d & Hne & Hpos%size_pos_iff) ->.
    assert (edge_between [] c d (size (officers_of df c ∩ officers_of df d)))
      as [Hin|Hin]; [by apply (corp_edge_between _ _ HE)|..];
      by apply elem_of_nil in Hin.
Qed.

(** The stages of a run on files that all parse, with rows that all have
    a display name, once the two projections went through. *)
Lemma create_networks_stages `{HashSeed} (files : list file)
    (oe : list (Unique * Unique * nat)) (ce : list (pyval * pyval * nat)) :
  Forall (λ f, file_data f ≠ Malformed) files →
  Forall (λ row, is_Some (FullName row)) (rows_of files) →
  rows_of files ≠ [] →
  officer_edges (rows_of files) = OK oe → corp_edges (rows_of files) = OK ce →
  (oe ≠ [] → ce ≠ [] → succeeds (create_networks files)) ∧
  (oe = [] ∨ ce = [] → create_networks files = Raise ValueError).
Proof.
  intros [cl Hload]%load_company_list_succeeds Hnames Hrows Hoe Hce.
  pose proof (load_company_list_rows _ _ Hload) as Hdf.
  unfold create_networks. rewrite Hload, bind_OK_l, Hdf.
  destruct (rows_of files) as [|row0 df0] eqn:Hdf0; [done|].
  rewrite bind_OK_l. rewrite <-Hdf0 in *. clear Hdf0 row0 df0.
  rewrite Hoe, bind_OK_l, Hce, bind_OK_l.
  pose proof (officer_edges_simple _ _ Hoe) as Hso.
  pose proof (corp_edges_simple _ _ Hce) as Hsc.
  split.
  - intros Hone Hcne.
    destruct (largest_component_spec oe Hone Hso) as (Go & co & HGo & _).
    destruct (largest_component_spec ce Hcne Hsc) as (Gc & cc & HGc & _).
    destruct (unique_to_name_succeeds _ Hnames) as [utn Hutn].
    rewrite HGo, bind_OK_l, HGc, bind_OK_l, Hutn, bind_OK_l.
    match goal with
    | |- succeeds (for_each ?f ?l ≫= _) =>
        destruct (for_each_succeeds f l) as [mpo Hmpo]
    end.
    { intros corpid Hin.
      rewrite set_iter_perm, elem_of_elements, elem_of_list_to_set in Hin.
      destruct (largest_component_OK ce Gc HGc Hsc)
        as (c & _ & _ & _ & Hnodes & Hends & _).
      apply Hnodes, Hends in Hin as [y Hy].
      destruct (get_most_popular_officers_succeeds (rows_of files) utn corpid)
        as (names & Hnames' & _); [by eapply corp_edge_keys|].
      rewrite Hnames'. by eexists. }
    rewrite Hmpo, bind_OK_l.
    match goal with
    | |- succeeds (for_each ?f ?l ≫= _) =>
        destruct (for_each_succeeds f l) as [mpc Hmpc]
    end.
    { intros unique ([u cs] & -> & Hu%elem_of_map_to_list)%list_elem_of_fmap.
      destruct (get_most_popular_companies_succeeds (rows_of files) oe
                  (corpid_to_company_name (rows_of files)) u Hoe)
        as (names & Hnames' & _); [by eexists|].
      simpl. rewrite Hnames'. by eexists. }
    rewrite Hmpc, bind_OK_l. by eexists.
  - intros Hnil. destruct oe as [|e oe'].
    { by rewrite largest_component_nil. }
    destruct Hnil as [?| ->]; [done|].
    destruct (largest_component_spec (e :: oe')) as (Go & co & HGo & _); [done..|].
    by rewrite HGo, bind_OK_l, largest_component_nil.
Qed.

(** X12 (outcome of a run). On files that all parse, with rows whose
    corp_id, key components and display name are all present, a run
    writes its tables exactly when two distinct officers share a company
    and two distinct companies share an officer. When the files hold an
    officer and one of the two conditions fails, the run raises
    [ValueError]: one of the two graphs has no edge, and [max] finds no
    component in it. In particular the files of a single company,
    whatever its officers, end in [ValueError]. *)
Theorem run_outcome `{HashSeed} (files : list file) :
  Forall (λ f, file_data f ≠ Malformed) files →
  Forall complete_row (rows_of files) →
  Forall (λ row, is_Some (FullName row)) (rows_of files) →
  (succeeds (create_networks files) ↔
     (∃ a b, a ≠ b ∧
        companies_of (rows_of files) a ∩ companies_of (rows_of files) b ≠ ∅) ∧
     (∃ c d, c ≠ d ∧
        officers_of (rows_of files) c ∩ officers_of (rows_of files) d ≠ ∅)) ∧
  (rows_of files ≠ [] →
   ¬ ((∃ a b, a ≠ b ∧
         companies_of (rows_of files) a ∩ companies_of (rows_of files) b ≠ ∅) ∧
      (∃ c d, c ≠ d ∧
         officers_of (rows_of files) c ∩ officers_of (rows_of files) d ≠ ∅)) →
   create_networks files = Raise ValueError).
Proof.
  intros Hfiles Hrows Hnames.
  destruct (rows_of files) as [|row0 df0] eqn:Hdf.
  { assert (create_networks files = Raise KeyError) as ->.
    { destruct (load_company_list_succeeds files Hfiles) as [cl Hload].
      pose proof (load_company_list_rows _ _ Hload) as Hcl.
      unfold create_networks. by rewrite Hload, bind_OK_l, Hcl, Hdf. }
    split; [|done].
    split; [by intros [? ?]|]. intros [(a & b & _ & Hshare) _].
    destruct Hshare. apply (left_absorb_L ∅ (∩)). }
  rewrite <-Hdf in *.
  assert (rows_of files ≠ []) as Hne by (by rewrite Hdf).
  clear Hdf row0 df0.
  destruct (projections_succeed _ Hrows) as [[oe Hoe] [ce Hce]].
  destruct (create_networks_stages files oe ce Hfiles Hnames Hne Hoe Hce)
    as [Hrun Hnone].
  rewrite <-(officer_edges_nonempty _ _ Hoe), <-(corp_edges_nonempty _ _ Hce).
  destruct oe as [|eo oe'].
  { rewrite Hnone by (by left).
    split; [|done]. split; [by intros [? ?]|by intros [? _]]. }
  destruct ce as [|ec ce'].
  { rewrite Hnone by (by right).
    split; [|done]. split; [by intros [? ?]|by intros [_ ?]]. }
  destruct Hrun as [out ->]; [done..|].
  split.
  - split; [done|]. intros _. by exists out.
  - intros _ Hnot. by destruct Hnot.
Qed.

Lemma run_outcome_witness :
  succeeds (create_networks (H := seed_up) three_companies) ∧
  create_networks (H := seed_up) lone_company = Raise ValueError.
Proof.
  split.
  - destruct (run_outcome (H := seed_up) three_companies) as (Hrun & _).
    + repeat constructor; discriminate.
    + apply (bool_decide_unpack _). vm_compute. exact I.
    + apply (bool_decide_unpack _). vm_compute. exact I.
    + apply Hrun. split.
      * exists O1, O2. split; [discriminate|].
        apply (bool_decide_unpack _). vm_compute. exact I.
      * exists (Some "C1"), (Some "C2"). split; [discriminate|].
        apply (bool_decide_unpack _). vm_compute. exact I.
  - destruct (run_outcome (H := seed_up) lone_company) as (_ & Hrun).
    + repeat constructor; discriminate.
    + apply (bool_decide_unpack _). vm_compute. exact I.
    + apply (bool_decide_unpack _). vm_compute. exact I.
    + apply Hrun; [discriminate|].
      intros [_ Hshare].
      apply (corp_edges_nonempty (H := seed_up) (rows_of lone_company) []) in Hshare.
      * apply Hshare. reflexivity.
      * vm_compute. reflexivity.
Defined.

(** ** A connected projection *)

Lemma kept_component_whole {K} (E table : list (K * K * nat)) keys (c : K → Prop) :
  kept_component E table keys c →
  (∀ u v, (∃ y, adjacent E u y) → (∃ y, adjacent E v y) → connected E u v) →
  ∀ a b w, edge_between table a b w ↔ edge_between E a b w.
Proof.
  intros ((v & Hv & Hc) & Hends & _ & _ & Hedges) Hconn a b w.
  rewrite Hedges. split; [tauto|]. intros Hab.
  pose proof (Hends v Hv) as Hvy.
  repeat split; [| |done]; apply Hc, Hconn; try done.
  - exists b, w. exact Hab.
  - exists a, w. destruct Hab; [by right|by left].
Qed.

(** X15 (a connected projection is kept whole). When every two officers
    that have an edge in the officer projection are joined by a path of
    its edges, the component filter removes nothing: the table of officer
    edges of the run holds exactly the edges of the projection, with
    their weights. Likewise for the companies. *)
Theorem connected_projection_kept_whole `{HashSeed} (files : list file) (out : output)
    (oe : list (Unique * Unique * nat)) (ce : list (pyval * pyval * nat)) :
  create_networks files = OK out →
  officer_edges (rows_of files) = OK oe →
  corp_edges (rows_of files) = OK ce →
  ((∀ u v, (∃ y, adjacent oe u y) → (∃ y, adjacent oe v y) → connected oe u v) →
   ∀ a b w, edge_between (officers_edges out) a b w ↔ edge_between oe a b w) ∧
  ((∀ c d, (∃ y, adjacent ce c y) → (∃ y, adjacent ce d y) → connected ce c d) →
   ∀ a b w, edge_between (corporations_edges out) a b w ↔ edge_between ce a b w).
Proof.
  intros (oe' & ce' & utn & co & cc & Hoe' & Hce' & _ & Hco & Hcc)%create_networks_graphs
    Hoe Hce.
  rewrite Hoe in Hoe'. injection Hoe' as <-.
  rewrite Hce in Hce'. injection Hce' as <-.
  split; intros Hconn.
  - by apply (kept_component_whole oe _ _ _ Hco).
  - by apply (kept_component_whole ce _ _ _ Hcc).
Qed.

Lemma connected_projection_kept_whole_witness :
  ∃ out, create_networks (H := seed_up) three_companies = OK out ∧
    ∀ a b w, edge_between (officers_edges out) a b w ↔
      edge_between [(O2, O3, 1); (O1, O2, 1); (O1, O4, 1); (O3, O4, 1); (O1, O3, 1)] a b w.
Proof.
  eexists. split; [vm_compute; reflexivity|].
  destruct (connected_projection_kept_whole (H := seed_up) three_companies _
              [(O2, O3, 1); (O1, O2, 1); (O1, O4, 1); (O3, O4, 1); (O1, O3, 1)]
              [(Some "C1", Some "C3", 1); (Some "C1", Some "C2", 1);
               (Some "C2", Some "C3", 1)] ltac:(vm_compute; reflexivity))
    as [Hofficers _]; [vm_compute; reflexivity..|].
  apply Hofficers. intros u v Hu Hv.
  set (oe := [(O2, O3, 1); (O1, O2, 1); (O1, O4, 1); (O3, O4, 1); (O1, O3, 1)]) in *.
  assert (∀ x, (∃ y, adjacent oe x y) → connected oe O1 x) as Hhub.
  { assert (adjacent oe O1 O2) as H12 by (exists 1; left; right; left).
    assert (adjacent oe O1 O3) as H13 by (exists 1; left; do 4 right; left).
    assert (adjacent oe O1 O4) as H14 by (exists 1; left; do 2 right; left).
    intros x (y & w & [Hin|Hin]);
      repeat (apply elem_of_cons in Hin as [Heq|Hin];
              [injection Heq as -> -> ->;
               first [apply rtc_refl | by apply rtc_once]|]);
      by apply elem_of_nil in Hin. }
  etrans; [apply connected_sym, Hhub, Hu|apply Hhub, Hv].
Defined.
